(** * python4.py: A* path search on a square grid

    A shallow embedding of the search core of [python4.py] (the functions
    [heuristic], [get_neighbors], [astar], [reconstruct_path] and the class
    [Node]) together with the part of Python's [heapq] module the search
    calls, and of the program around it ([reset_game], [draw_grid],
    [draw_elements] and the main loop), followed by the properties of the
    search that the design document states and by further properties of
    the search and of the main loop.

    Python integers are unbounded, so coordinates and costs are [Z].  A
    coordinate is the tuple [(x, y)].  The module-level globals [GRID_SIZE]
    and [obstacles] form the store the search reads. *)

From stdpp Require Import gmap list strings.
From Stdlib Require Import ZArith Lia ZifyNat.

Local Open Scope Z_scope.

(** ** The grid globals *)

Record Globals : Type := mkGlobals {
  GRID_SIZE : Z;
  obstacles : gset (Z * Z)
}.

(** The store of the program as written: [GRID_SIZE = 30]. *)
Definition python4_globals (obs : gset (Z * Z)) : Globals :=
  {| GRID_SIZE := 30; obstacles := obs |}.

Definition DIRECTIONS : list (Z * Z) := [(-1, 0); (1, 0); (0, -1); (0, 1)].

(** ** class Node *)

Module Node.

#[local] Unset Elimination Schemes.

Inductive t : Type :=
  Build { x : Z; y : Z; g : Z; h : Z; f : Z; parent : option t }.

(** [__init__]: [f] is computed once, from [g] and [h]. *)
Definition init (x y g h : Z) (parent : option t) : t :=
  Build x y g h (g + h) parent.

(** [__lt__]: nodes are compared by [f] alone. *)
Definition lt (self other : t) : bool := bool_decide (f self < f other).

(** The tuple [(node.x, node.y)]. *)
Definition pos (n : t) : Z * Z := (x n, y n).

End Node.

(** ** heuristic *)

Definition heuristic (a b : Z * Z) : Z :=
  Z.abs (a.1 - b.1) + Z.abs (a.2 - b.2).

(** ** get_neighbors *)

Definition get_neighbors (gl : Globals) (node : Node.t) : list (Z * Z) :=
  foldl (fun neighbors d =>
           let nx := Node.x node + d.1 in
           let ny := Node.y node + d.2 in
           if bool_decide (0 <= nx < GRID_SIZE gl /\ 0 <= ny < GRID_SIZE gl
                           /\ (nx, ny) ∉ obstacles gl)
           then neighbors ++ [(nx, ny)]
           else neighbors)
        [] DIRECTIONS.

(** ** heapq (the binary heap of the Python standard library)

    The heap is a Python list; [heap[i] = v] is the list update
    [<[i:=v]> heap].  Every index the sift loops read is in range, so the
    [None] branches of the lookups stand for an [IndexError] that does not
    occur.  The loops carry a fuel that is at least the number of
    iterations they can make. *)

Module heapq.

Local Open Scope nat_scope.

(** The [while pos > startpos] loop of [_siftdown]. *)
Fixpoint _siftdown_loop (fuel : nat) (heap : list Node.t)
    (startpos pos : nat) (newitem : Node.t) : list Node.t :=
  match fuel with
  | O => <[pos := newitem]> heap
  | S fuel' =>
      if bool_decide (startpos < pos) then
        let parentpos := (pos - 1) / 2 in
        match heap !! parentpos with
        | Some parent =>
            if Node.lt newitem parent
            then _siftdown_loop fuel' (<[pos := parent]> heap)
                                startpos parentpos newitem
            else <[pos := newitem]> heap
        | None => <[pos := newitem]> heap
        end
      else <[pos := newitem]> heap
  end.

Definition _siftdown (heap : list Node.t) (startpos pos : nat)
    : list Node.t :=
  match heap !! pos with
  | Some newitem => _siftdown_loop pos heap startpos pos newitem
  | None => heap
  end.

(** The [while childpos < endpos] loop of [_siftup]: the smaller child is
    moved up until a leaf is reached; the result is the list and the
    position of the leaf. *)
Fixpoint _siftup_loop (fuel : nat) (heap : list Node.t)
    (endpos pos : nat) : list Node.t * nat :=
  match fuel with
  | O => (heap, pos)
  | S fuel' =>
      let childpos := 2 * pos + 1 in
      if bool_decide (childpos < endpos) then
        let rightpos := childpos + 1 in
        match heap !! childpos with
        | Some child =>
            let childpos :=
              if bool_decide (rightpos < endpos) then
                match heap !! rightpos with
                | Some rchild =>
                    if negb (Node.lt child rchild) then rightpos
                    else childpos
                | None => childpos
                end
              else childpos in
            match heap !! childpos with
            | Some smaller =>
                _siftup_loop fuel' (<[pos := smaller]> heap) endpos childpos
            | None => (heap, pos)
            end
        | None => (heap, pos)
        end
      else (heap, pos)
  end.

Definition _siftup (heap : list Node.t) (pos : nat) : list Node.t :=
  let endpos := length heap in
  let startpos := pos in
  match heap !! pos with
  | Some newitem =>
      let '(heap, pos) := _siftup_loop endpos heap endpos pos in
      _siftdown (<[pos := newitem]> heap) startpos pos
  | None => heap
  end.

Definition heappush (heap : list Node.t) (item : Node.t) : list Node.t :=
  let heap := heap ++ [item] in
  _siftdown heap 0 (length heap - 1).

(** [None] is the [IndexError] of popping from an empty list. *)
Definition heappop (heap : list Node.t) : option (Node.t * list Node.t) :=
  match last heap with
  | None => None
  | Some lastelt =>
      let heap := removelast heap in
      match heap with
      | [] => Some (lastelt, heap)
      | returnitem :: _ => Some (returnitem, _siftup (<[0 := lastelt]> heap) 0)
      end
  end.

End heapq.

(** ** reconstruct_path *)

(** The [while current:] loop: the coordinates from [current] back along
    the [parent] references, in the order they are appended. *)
Fixpoint parent_chain (current : Node.t) : list (Z * Z) :=
  match current with
  | Node.Build cx cy _ _ _ par =>
      (cx, cy) :: match par with
                  | Some p => parent_chain p
                  | None => []
                  end
  end.

Definition reconstruct_path (came_from : gmap (Z * Z) Node.t)
    (current : Node.t) : list (Z * Z) :=
  reverse (parent_chain current).

(** ** astar *)

(** The state of the [while open_set:] loop, with the store it runs in. *)
Record state : Type := mkState {
  globals : Globals;
  open_set : list Node.t;
  closed_set : gset (Z * Z);
  came_from : gmap (Z * Z) Node.t
}.

(** What one pass through the loop does: it returns from [astar], with a
    path or with [None], or it goes round again. *)
Inductive outcome : Type :=
  | Return (result : option (list (Z * Z))) (gl : Globals)
  | Continue (s : state).

(** One pass through the body of [for neighbor in get_neighbors(current)]. *)
Definition visit_neighbor (end_ : Z * Z) (current : Node.t)
    (closed_set : gset (Z * Z))
    (acc : list Node.t * gmap (Z * Z) Node.t) (neighbor : Z * Z)
    : list Node.t * gmap (Z * Z) Node.t :=
  if bool_decide (neighbor ∈ closed_set) then acc
  else
    let new_node :=
      Node.init neighbor.1 neighbor.2 (Node.g current + 1)
                (heuristic neighbor end_) (Some current) in
    (heapq.heappush acc.1 new_node, <[neighbor := current]> acc.2).

(** One pass through the body of [while open_set:]. *)
Definition astar_body (end_ : Z * Z) (s : state) : outcome :=
  match heapq.heappop (open_set s) with
  | None => Return None (globals s)
  | Some (current, open_set') =>
      if bool_decide (Node.pos current = end_) then
        Return (Some (reconstruct_path (came_from s) current)) (globals s)
      else
        let closed_set' := closed_set s ∪ {[Node.pos current]} in
        let acc :=
          foldl (visit_neighbor end_ current closed_set')
                (open_set', came_from s)
                (get_neighbors (globals s) current) in
        Continue (mkState (globals s) acc.1 closed_set' acc.2)
  end.

(** [astar_iter n] makes [n] passes through the loop, or fewer when the
    search returns before. *)
Fixpoint astar_iter (end_ : Z * Z) (n : nat) (s : state) : outcome :=
  match n with
  | O => Continue s
  | S n' =>
      match astar_body end_ s with
      | Return r gl => Return r gl
      | Continue s' => astar_iter end_ n' s'
      end
  end.

(** [astar_while k] makes up to [2 ^ k] passes through the loop. *)
Fixpoint astar_while (end_ : Z * Z) (k : nat) (s : state) : outcome :=
  match k with
  | O => astar_body end_ s
  | S k' =>
      match astar_while end_ k' s with
      | Return r gl => Return r gl
      | Continue s' => astar_while end_ k' s'
      end
  end.

(** The state in which the loop is entered. *)
Definition astar_init (gl : Globals) (start end_ : Z * Z) : state :=
  mkState gl
    (heapq.heappush []
       (Node.init start.1 start.2 0 (heuristic start end_) None))
    ∅ ∅.

(** A number of doublings that covers every search on the grid (see
    [astar_run]). *)
Definition astar_fuel (gl : Globals) : nat :=
  (3 * (Z.to_nat (GRID_SIZE gl) * Z.to_nat (GRID_SIZE gl)) + 3)%nat.

(** [astar(start, end)]: the result and the store after the call.  The
    [Continue] branch is never taken. *)
Definition astar (gl : Globals) (start end_ : Z * Z)
    : option (list (Z * Z)) * Globals :=
  match astar_while end_ (astar_fuel gl) (astar_init gl start end_) with
  | Return r gl' => (r, gl')
  | Continue s => (None, globals s)
  end.

Definition find_path (gl : Globals) (start end_ : Z * Z)
    : option (list (Z * Z)) :=
  (astar gl start end_).1.

(** * The program around the search *)

(** [reset_game], the two drawing functions and the main loop with its
    event handlers.  The globals [start], [end] and [obstacles], the loop
    variables [path] and [running], and what the program has sent to the
    window and to standard output make up the state of the program. *)

Module Main.

Definition CELL_SIZE : Z := 20.
Definition SCREEN_SIZE : Z := GRID_SIZE (python4_globals ∅) * CELL_SIZE.

Definition WHITE : Z * Z * Z := (255, 255, 255).
Definition BLACK : Z * Z * Z := (0, 0, 0).
Definition GREEN : Z * Z * Z := (0, 255, 0).
Definition RED : Z * Z * Z := (255, 0, 0).
Definition BLUE : Z * Z * Z := (0, 0, 255).
Definition GRAY : Z * Z * Z := (200, 200, 200).

(** pygame's codes of the two keys the program reads. *)
Definition K_SPACE : Z := 32.
Definition K_r : Z := 114.

(** The events of [pygame.event.get()], with the attributes the program
    reads; [OTHER] is an event of any other type. *)
Inductive Event : Type :=
  | QUIT
  | MOUSEBUTTONDOWN (pos : Z * Z) (button : Z)
  | KEYDOWN (key : Z)
  | OTHER.

(** The calls the program makes on the window: [screen.fill],
    [pygame.draw.rect] with its [(left, top, width, height)],
    [pygame.draw.line] and [pygame.display.flip]. *)
Inductive call : Type :=
  | fill (color : Z * Z * Z)
  | draw_rect (color : Z * Z * Z) (rect : Z * Z * Z * Z)
  | draw_line (color : Z * Z * Z) (start_pos end_pos : Z * Z)
  | display_flip.

Record world : Type := mkWorld {
  grid : Globals;
  start : option (Z * Z);
  end_ : option (Z * Z);
  path : option (list (Z * Z));
  running : bool;
  screen : list call;
  stdout : list string
}.

(** The program as it starts: no marks, no obstacles, [path = None],
    [running = True]. *)
Definition initial : world :=
  mkWorld (python4_globals ∅) None None None true [] [].

Definition set_start (v : option (Z * Z)) (w : world) : world :=
  mkWorld (grid w) v (end_ w) (path w) (running w) (screen w) (stdout w).

Definition set_end (v : option (Z * Z)) (w : world) : world :=
  mkWorld (grid w) (start w) v (path w) (running w) (screen w) (stdout w).

Definition set_obstacles (v : gset (Z * Z)) (w : world) : world :=
  mkWorld (mkGlobals (GRID_SIZE (grid w)) v) (start w) (end_ w) (path w)
          (running w) (screen w) (stdout w).

Definition set_grid (v : Globals) (w : world) : world :=
  mkWorld v (start w) (end_ w) (path w) (running w) (screen w) (stdout w).

Definition set_path (v : option (list (Z * Z))) (w : world) : world :=
  mkWorld (grid w) (start w) (end_ w) v (running w) (screen w) (stdout w).

Definition set_running (v : bool) (w : world) : world :=
  mkWorld (grid w) (start w) (end_ w) (path w) v (screen w) (stdout w).

Definition print (line : string) (w : world) : world :=
  mkWorld (grid w) (start w) (end_ w) (path w) (running w) (screen w)
          (stdout w ++ [line]).

Definition draw (calls : list call) (w : world) : world :=
  mkWorld (grid w) (start w) (end_ w) (path w) (running w)
          (screen w ++ calls) (stdout w).

(** ** reset_game *)

Definition reset_game (w : world) : world :=
  set_obstacles ∅ (set_end None (set_start None w)).

(** ** draw_grid *)

(** [range(start, stop, step)] for a positive [step]. *)
Definition range (start stop step : Z) : list Z :=
  (fun i => start + i * step) <$> seqZ 0 ((stop - start + step - 1) `div` step).

Definition draw_grid : list call :=
  ((fun x => draw_line GRAY (x, 0) (x, SCREEN_SIZE))
     <$> range 0 SCREEN_SIZE CELL_SIZE)
  ++ ((fun y => draw_line GRAY (0, y) (SCREEN_SIZE, y))
        <$> range 0 SCREEN_SIZE CELL_SIZE).

(** ** draw_elements *)

(** The rectangle [(x * CELL_SIZE, y * CELL_SIZE, CELL_SIZE, CELL_SIZE)]. *)
Definition cell_rect (c : Z * Z) : Z * Z * Z * Z :=
  (c.1 * CELL_SIZE, c.2 * CELL_SIZE, CELL_SIZE, CELL_SIZE).

(** The calls of [draw_elements(path)], in order.  The obstacles are drawn
    in the order in which the set is iterated. *)
Definition draw_elements (w : world) (path : option (list (Z * Z)))
    : list call :=
  [fill WHITE]
  ++ ((fun c => draw_rect BLACK (cell_rect c))
        <$> elements (obstacles (grid w)))
  ++ match path with
     | Some ((_ :: _) as p) => (fun c => draw_rect GREEN (cell_rect c)) <$> p
     | _ => []
     end
  ++ match start w with
     | Some c => [draw_rect BLUE (cell_rect c)]
     | None => []
     end
  ++ match end_ w with
     | Some c => [draw_rect RED (cell_rect c)]
     | None => []
     end
  ++ draw_grid
  ++ [display_flip].

(** ** The main loop *)

(** The body of [for event in pygame.event.get()]. *)
Definition handle_event (w : world) (event : Event) : world :=
  match event with
  | QUIT => set_running false w
  | MOUSEBUTTONDOWN pos button =>
      let grid_x := pos.1 `div` CELL_SIZE in
      let grid_y := pos.2 `div` CELL_SIZE in
      if bool_decide (button = 1) then
        if bool_decide ((grid_x, grid_y) ∉ obstacles (grid w)
                        ∧ Some (grid_x, grid_y) ≠ end_ w)
        then set_start (Some (grid_x, grid_y)) w
        else w
      else if bool_decide (button = 3) then
        if bool_decide ((grid_x, grid_y) ∉ obstacles (grid w)
                        ∧ Some (grid_x, grid_y) ≠ start w)
        then set_end (Some (grid_x, grid_y)) w
        else w
      else if bool_decide (button = 2) then
        if bool_decide (Some (grid_x, grid_y) ≠ start w
                        ∧ Some (grid_x, grid_y) ≠ end_ w)
        then set_obstacles ({[(grid_x, grid_y)]} ∪ obstacles (grid w)) w
        else w
      else w
  | KEYDOWN key =>
      if bool_decide (key = K_SPACE) then
        match start w, end_ w with
        | Some s, Some e =>
            let result := astar (grid w) s e in
            match result.1 with
            | Some p => set_path (Some p) (set_grid result.2 w)
            | None =>
                reset_game
                  (print "No valid path! Resetting..."
                     (set_path None
                        (print "No path found!" (set_grid result.2 w))))
            end
        | _, _ => print "Set start and end points before running A*" w
        end
      else if bool_decide (key = K_r) then set_path None (reset_game w)
      else w
  | OTHER => w
  end.

(** The [while running:] loop, run on the batches of events that the
    successive calls of [pygame.event.get()] return. *)
Fixpoint main_loop (events : list (list Event)) (w : world) : world :=
  match events with
  | [] => w
  | batch :: events' =>
      if running w then
        main_loop events'
          (foldl handle_event (draw (draw_elements w (path w)) w) batch)
      else w
  end.

End Main.

(** * Notions used by the properties *)

(** The heap invariant of [heapq]: no element is smaller than its parent. *)
Definition heap_ok (heap : list Node.t) : Prop :=
  ∀ i a b, (0 < i)%nat → heap !! i = Some a →
           heap !! ((i - 1) / 2)%nat = Some b → Node.f b <= Node.f a.

(** The invariant with the element at [pos] possibly smaller than its
    parent; its children are not smaller than that parent. *)
Definition heap_ok_above (heap : list Node.t) (pos : nat) : Prop :=
  (∀ i a b, (0 < i)%nat → i ≠ pos → heap !! i = Some a →
            heap !! ((i - 1) / 2)%nat = Some b → Node.f b <= Node.f a) ∧
  (∀ i a b, (0 < pos)%nat → (0 < i)%nat → ((i - 1) / 2)%nat = pos →
            heap !! i = Some a →
            heap !! ((pos - 1) / 2)%nat = Some b → Node.f b <= Node.f a).

(** The invariant with a hole at [pos]: the entry there is stale, and the
    children of the hole are not smaller than its parent. *)
Definition heap_ok_hole (heap : list Node.t) (pos : nat) : Prop :=
  (∀ i a b, (0 < i)%nat → i ≠ pos → ((i - 1) / 2)%nat ≠ pos →
            heap !! i = Some a →
            heap !! ((i - 1) / 2)%nat = Some b → Node.f b <= Node.f a) ∧
  (∀ i a b, (0 < pos)%nat → (0 < i)%nat → ((i - 1) / 2)%nat = pos →
            heap !! i = Some a →
            heap !! ((pos - 1) / 2)%nat = Some b → Node.f b <= Node.f a).

(** The node the loop makes for a neighbor of [current]. *)
Definition child_node (end_ : Z * Z) (current : Node.t) (neighbor : Z * Z)
    : Node.t :=
  Node.init neighbor.1 neighbor.2 (Node.g current + 1)
            (heuristic neighbor end_) (Some current).

Definition in_bounds (gl : Globals) (c : Z * Z) : Prop :=
  0 <= c.1 < GRID_SIZE gl ∧ 0 <= c.2 < GRID_SIZE gl.

(** [b] is one orthogonal unit step away from [a]. *)
Definition unit_step (a b : Z * Z) : Prop :=
  ∃ d, d ∈ DIRECTIONS ∧ b = (a.1 + d.1, a.2 + d.2).

(** The coordinates of the grid. *)
Definition cells (gl : Globals) : list (Z * Z) :=
  x ← seqZ 0 (GRID_SIZE gl); ((fun y => (x, y)) <$> seqZ 0 (GRID_SIZE gl)).

(** The coordinates of the grid that are not closed. *)
Definition open_cells (gl : Globals) (closed : gset (Z * Z)) : list (Z * Z) :=
  filter (.∉ closed) (cells gl).

(** What a node on the heap can still cost: a node on an open cell closes
    that cell and pushes at most four nodes; any other node pushes at most
    four nodes and closes nothing. *)
Definition node_weight (gl : Globals) (closed : gset (Z * Z)) (n : Node.t)
    : nat :=
  let u := length (open_cells gl closed) in
  if decide (Node.pos n ∈ open_cells gl closed)
  then (5 ^ u)%nat else (1 + 4 * 5 ^ u)%nat.

Definition search_weight (s : state) : nat :=
  sum_list_with (node_weight (globals s) (closed_set s)) (open_set s).

(** Consecutive coordinates are one orthogonal unit step apart. *)
Fixpoint is_route (p : list (Z * Z)) : Prop :=
  match p with
  | a :: (b :: _) as rest => unit_step a b ∧ is_route rest
  | _ => True
  end.

(** [p] is a four-directional route from [a] to [b] that avoids the
    obstacles of the grid. *)
Definition route_from_to (gl : Globals) (p : list (Z * Z)) (a b : Z * Z)
    : Prop :=
  head p = Some a ∧ last p = Some b ∧ is_route p
  ∧ ∀ c, c ∈ p → c ∉ obstacles gl.

(** The chain of [parent] references of a node starts at [start], moves by
    unit steps and stays off the obstacles. *)
Fixpoint node_ok (gl : Globals) (start : Z * Z) (n : Node.t) : Prop :=
  match n with
  | Node.Build nx ny _ _ _ par =>
      ((nx, ny) ∉ obstacles gl) ∧
      match par with
      | None => (nx, ny) = start
      | Some p => unit_step (Node.pos p) (nx, ny) ∧ node_ok gl start p
      end
  end.

(** All four orthogonal neighbors of [end_] are obstacles or lie outside
    the grid. *)
Definition enclosed (gl : Globals) (end_ : Z * Z) : Prop :=
  ∀ c, unit_step end_ c → c ∈ obstacles gl ∨ ¬ in_bounds gl c.

(** ** The search without the predecessor map

    The engine as the design document describes its result: the path is
    read off the popped node's own [parent] chain.  This variant never
    makes a [came_from] map, never records a neighbor in it and never
    hands it to the reconstruction; everything else is [astar]. *)

Module NoCameFrom.

Record state : Type := mkState {
  globals : Globals;
  open_set : list Node.t;
  closed_set : gset (Z * Z)
}.

Inductive outcome : Type :=
  | Return (result : option (list (Z * Z))) (gl : Globals)
  | Continue (s : state).

Definition reconstruct_path (current : Node.t) : list (Z * Z) :=
  reverse (parent_chain current).

Definition visit_neighbor (end_ : Z * Z) (current : Node.t)
    (closed_set : gset (Z * Z)) (open_set : list Node.t) (neighbor : Z * Z)
    : list Node.t :=
  if bool_decide (neighbor ∈ closed_set) then open_set
  else
    let new_node :=
      Node.init neighbor.1 neighbor.2 (Node.g current + 1)
                (heuristic neighbor end_) (Some current) in
    heapq.heappush open_set new_node.

Definition astar_body (end_ : Z * Z) (s : state) : outcome :=
  match heapq.heappop (open_set s) with
  | None => Return None (globals s)
  | Some (current, open_set') =>
      if bool_decide (Node.pos current = end_) then
        Return (Some (reconstruct_path current)) (globals s)
      else
        let closed_set' := closed_set s ∪ {[Node.pos current]} in
        Continue (mkState (globals s)
                    (foldl (visit_neighbor end_ current closed_set')
                           open_set' (get_neighbors (globals s) current))
                    closed_set')
  end.

Fixpoint astar_while (end_ : Z * Z) (k : nat) (s : state) : outcome :=
  match k with
  | O => astar_body end_ s
  | S k' =>
      match astar_while end_ k' s with
      | Return r gl => Return r gl
      | Continue s' => astar_while end_ k' s'
      end
  end.

Definition astar_init (gl : Globals) (start end_ : Z * Z) : state :=
  mkState gl
    (heapq.heappush []
       (Node.init start.1 start.2 0 (heuristic start end_) None))
    ∅.

Definition astar (gl : Globals) (start end_ : Z * Z)
    : option (list (Z * Z)) * Globals :=
  match astar_while end_ (astar_fuel gl) (astar_init gl start end_) with
  | Return r gl' => (r, gl')
  | Continue s => (None, globals s)
  end.

Definition find_path (gl : Globals) (start end_ : Z * Z)
    : option (list (Z * Z)) :=
  (astar gl start end_).1.

End NoCameFrom.

(** A state of [astar] without its predecessor map. *)
Definition forget (s : state) : NoCameFrom.state :=
  NoCameFrom.mkState (globals s) (open_set s) (closed_set s).

Definition forget_outcome (o : outcome) : NoCameFrom.outcome :=
  match o with
  | Return r gl => NoCameFrom.Return r gl
  | Continue s => NoCameFrom.Continue (forget s)
  end.

(** What skipping at pop time would be: when the popped node's coordinate
    is in the closed set, the pass pushes nothing and closes nothing. *)
Definition skips_closed_node (end_ : Z * Z) (s : state) : Prop :=
  ∀ current rest,
    heapq.heappop (open_set s) = Some (current, rest) →
    Node.pos current ∈ closed_set s →
    ∃ s', astar_body end_ s = Continue s'
          ∧ open_set s' = rest ∧ closed_set s' = closed_set s.

(** The search from [(0, 0)] to [(2, 2)] on the empty 30 x 30 grid, after
    eight passes through the loop. *)
Definition revisit_init : state := astar_init (python4_globals ∅) (0, 0) (2, 2).

Definition revisit_state : state :=
  match astar_iter (2, 2) 8 revisit_init with
  | Continue s => s
  | Return _ _ => revisit_init
  end.

Definition revisit_current : Node.t :=
  match heapq.heappop (open_set revisit_state) with
  | Some (current, _) => current
  | None => Node.init 0 0 0 0 None
  end.

Definition revisit_rest : list Node.t :=
  match heapq.heappop (open_set revisit_state) with
  | Some (_, rest) => rest
  | None => []
  end.

(** The loop makes [n] passes that pop and expand a node, and returns in
    the pass after them. *)
Definition astar_expansions (gl : Globals) (start end_ : Z * Z) (n : nat)
    : Prop :=
  ∃ s r gl', astar_iter end_ n (astar_init gl start end_) = Continue s
             ∧ astar_body end_ s = Return r gl'.

(** Whether the loop has returned within [n] passes. *)
Definition returned_within (end_ : Z * Z) (n : nat) (s : state) : bool :=
  match astar_iter end_ n s with
  | Return _ _ => true
  | Continue _ => false
  end.

(** A wall at [x = 15] from [y = 0] to [y = 28]; the cell [(15, 29)] is
    open. *)
Definition wall_obstacles : gset (Z * Z) :=
  list_to_set ((fun y => (15, y)) <$> seqZ 0 29).

(** What the loop keeps true of a node [n] on the heap: [h] is the
    heuristic of its coordinate, [f = g + h], [g] is the number of moves
    of its chain and at least the distance from [start], and the
    coordinate is on the grid. *)
Definition sound_node (gl : Globals) (start end_ : Z * Z) (n : Node.t)
    : Prop :=
  Node.h n = heuristic (Node.pos n) end_
  ∧ Node.f n = Node.g n + Node.h n
  ∧ heuristic start (Node.pos n) <= Node.g n
  ∧ Z.of_nat (length (parent_chain n)) = Node.g n + 1
  ∧ in_bounds gl (Node.pos n).

(** [d] is a neighbor of [c] that is one move nearer to [end_]. *)
Definition toward (end_ c d : Z * Z) : Prop :=
  unit_step c d ∧ heuristic d end_ = heuristic c end_ - 1.

(** The coordinate [c] is closed, or a node at [c] whose [f] is the
    distance [best] from start to end is on the heap. *)
Definition reached (s : state) (best : Z) (c : Z * Z) : Prop :=
  c ∈ closed_set s
  ∨ ∃ n, n ∈ open_set s ∧ Node.pos n = c ∧ Node.f n = best.

Definition optimal_invariant (gl : Globals) (start end_ : Z * Z) (s : state)
    : Prop :=
  globals s = gl
  ∧ heap_ok (open_set s)
  ∧ (∀ n, n ∈ open_set s → sound_node gl start end_ n)
  ∧ (end_ ∉ closed_set s)
  ∧ reached s (heuristic start end_) start
  ∧ (∀ c d, c ∈ closed_set s → toward end_ c d →
            reached s (heuristic start end_) d).

(** [p] is a route from [a] to [b] that the search can walk: after its
    first coordinate, every coordinate is on the grid and no obstacle. *)
Definition walkable (gl : Globals) (p : list (Z * Z)) (a b : Z * Z) : Prop :=
  head p = Some a ∧ last p = Some b ∧ is_route p
  ∧ ∀ c, c ∈ tail p → in_bounds gl c ∧ c ∉ obstacles gl.

(** The costs a node carries: [h] is the heuristic of its coordinate,
    [f = g + h], and [g] is the number of moves of its parent chain. *)
Definition cost_ok (end_ : Z * Z) (n : Node.t) : Prop :=
  Node.h n = heuristic (Node.pos n) end_
  ∧ Node.f n = Node.g n + Node.h n
  ∧ Z.of_nat (length (parent_chain n)) = Node.g n + 1.

(** Every open neighbor [b] of a closed coordinate [a] has a node on the
    heap whose [g] is at most one more than the moves of any walkable
    route from [start] to [a]. *)
Definition frontier_covers (gl : Globals) (start : Z * Z) (s : state)
    : Prop :=
  ∀ q a b, walkable gl q start a → a ∈ closed_set s →
           unit_step a b → in_bounds gl b → b ∉ obstacles gl →
           b ∉ closed_set s →
           ∃ m, m ∈ open_set s ∧ Node.pos m = b
                ∧ Node.g m <= Z.of_nat (length q).

Definition search_invariant (gl : Globals) (start end_ : Z * Z) (s : state)
    : Prop :=
  globals s = gl
  ∧ heap_ok (open_set s)
  ∧ (∀ n, n ∈ open_set s → cost_ok end_ n)
  ∧ (end_ ∉ closed_set s)
  ∧ (start ∈ closed_set s
     ∨ ∃ m, m ∈ open_set s ∧ Node.pos m = start ∧ Node.g m <= 0)
  ∧ frontier_covers gl start s.

(** The chain of [parent] references of a node starts at [start]; every
    later coordinate is a unit step from its parent, on the grid and no
    obstacle. *)
Fixpoint node_walkable (gl : Globals) (start : Z * Z) (n : Node.t) : Prop :=
  match n with
  | Node.Build nx ny _ _ _ par =>
      match par with
      | None => (nx, ny) = start
      | Some p =>
          in_bounds gl (nx, ny) ∧ ((nx, ny) ∉ obstacles gl)
          ∧ unit_step (Node.pos p) (nx, ny) ∧ node_walkable gl start p
      end
  end.

(** ** Notions for the main loop *)

(** The marks are off the obstacles and apart. *)
Definition marks_free (w : Main.world) : Prop :=
  (∀ c, Main.start w = Some c → c ∉ obstacles (Main.grid w))
  ∧ (∀ c, Main.end_ w = Some c → c ∉ obstacles (Main.grid w))
  ∧ (∀ c, Main.start w = Some c → Main.end_ w ≠ Some c).

(** The event is no click at a position outside the window. *)
Definition in_window (event : Main.Event) : Prop :=
  match event with
  | Main.MOUSEBUTTONDOWN pos _ =>
      (0 <= pos.1 < Main.SCREEN_SIZE) ∧ (0 <= pos.2 < Main.SCREEN_SIZE)
  | _ => True
  end.

(** The marks, the obstacles and the coordinates of [path] are cells of
    the grid. *)
Definition on_grid (w : Main.world) : Prop :=
  (∀ c, Main.start w = Some c → in_bounds (Main.grid w) c)
  ∧ (∀ c, Main.end_ w = Some c → in_bounds (Main.grid w) c)
  ∧ (∀ c, c ∈ obstacles (Main.grid w) → in_bounds (Main.grid w) c)
  ∧ (∀ p c, Main.path w = Some p → c ∈ p → in_bounds (Main.grid w) c).

(** The pixels of a rectangle [(l, t, wd, ht)]: [wd] columns from [l] on
    and [ht] rows from [t] on. *)
Definition point_in_rect (p : Z * Z) (rect : Z * Z * Z * Z) : Prop :=
  let '(l, t, wd, ht) := rect in
  (l <= p.1 < l + wd) ∧ (t <= p.2 < t + ht).

Definition rect_in_window (rect : Z * Z * Z * Z) : Prop :=
  let '(l, t, wd, ht) := rect in
  0 <= l ∧ 0 <= t ∧ l + wd <= Main.SCREEN_SIZE ∧ t + ht <= Main.SCREEN_SIZE.

(** The call draws nothing beyond the borders of the window. *)
Definition call_in_window (c : Main.call) : Prop :=
  match c with
  | Main.draw_rect _ rect => rect_in_window rect
  | Main.draw_line _ p q =>
      (0 <= p.1 <= Main.SCREEN_SIZE) ∧ (0 <= p.2 <= Main.SCREEN_SIZE)
      ∧ (0 <= q.1 <= Main.SCREEN_SIZE) ∧ (0 <= q.2 <= Main.SCREEN_SIZE)
  | _ => True
  end.

(** What the main loop keeps when no click falls outside the window. *)
Definition window_invariant (w : Main.world) : Prop :=
  GRID_SIZE (Main.grid w) = 30
  ∧ on_grid w
  ∧ Forall call_in_window (Main.screen w).

(** The shape of a path on display. *)
Definition path_shape (w : Main.world) : Prop :=
  ∀ p, Main.path w = Some p → p ≠ [] ∧ is_route p ∧ NoDup p.

(** * Properties *)

(** ** The heap keeps its elements *)

Section heap_elements.

Local Open Scope nat_scope.
Implicit Types (heap : list Node.t) (item newitem : Node.t).

(** Writing [b] over position [i] and then [a] over the position [j]
    where [b] came from exchanges the two. *)
Lemma insert_move_perm heap i j a b :
  heap !! j = Some b → i < length heap →
  <[j := a]> (<[i := b]> heap) ≡ₚ <[i := a]> heap.
Proof.
  intros Hj Hi. destruct (decide (i = j)) as [->|Hne].
  - by rewrite list_insert_insert_eq.
  - rewrite <- (list_insert_insert_eq heap i b a).
    apply Permutation_insert_swap.
    + by apply list_lookup_insert_eq.
    + by rewrite list_lookup_insert_ne.
Qed.

Lemma _siftdown_loop_perm fuel heap startpos pos newitem :
  pos < length heap →
  heapq._siftdown_loop fuel heap startpos pos newitem
    ≡ₚ <[pos := newitem]> heap.
Proof.
  revert heap pos. induction fuel as [|fuel IH]; intros heap pos Hpos;
    cbn [heapq._siftdown_loop]; [done|].
  case_bool_decide; [|done].
  destruct (heap !! ((pos - 1) / 2)) as [par|] eqn:Hpar; [|done].
  destruct (Node.lt newitem par); [|done].
  rewrite IH.
  - by apply insert_move_perm.
  - rewrite length_insert. by eapply lookup_lt_Some.
Qed.

Lemma _siftdown_perm heap startpos pos :
  heapq._siftdown heap startpos pos ≡ₚ heap.
Proof.
  unfold heapq._siftdown.
  destruct (heap !! pos) as [newitem|] eqn:Hpos; [|done].
  rewrite _siftdown_loop_perm by (by eapply lookup_lt_Some).
  by rewrite list_insert_id.
Qed.

Lemma _siftup_loop_perm fuel heap endpos pos newitem heap' pos' :
  pos < length heap →
  heapq._siftup_loop fuel heap endpos pos = (heap', pos') →
  pos' < length heap' ∧ <[pos' := newitem]> heap' ≡ₚ <[pos := newitem]> heap.
Proof.
  revert heap pos. induction fuel as [|fuel IH]; intros heap pos Hpos;
    cbn [heapq._siftup_loop]; [by intros [= <- <-]|].
  case_bool_decide; [|by intros [= <- <-]].
  destruct (heap !! (2 * pos + 1)) as [child|] eqn:Hchild;
    [|by intros [= <- <-]].
  match goal with
  | |- context [ heap !! ?c ] =>
      destruct (heap !! c) as [smaller|] eqn:Hsm; [|by intros [= <- <-]];
      intros Hloop; apply IH in Hloop as [Hlt Hperm];
      [ split; [done|]; rewrite Hperm; by apply insert_move_perm
      | rewrite length_insert; by eapply lookup_lt_Some ]
  end.
Qed.

Lemma _siftup_perm heap pos : heapq._siftup heap pos ≡ₚ heap.
Proof.
  unfold heapq._siftup.
  destruct (heap !! pos) as [newitem|] eqn:Hpos; [|done].
  destruct (heapq._siftup_loop _ _ _ _) as [heap' pos'] eqn:Hloop.
  eapply (_siftup_loop_perm _ _ _ _ newitem) in Hloop as [_ Hperm];
    [|by eapply lookup_lt_Some].
  rewrite _siftdown_perm, Hperm. by rewrite list_insert_id.
Qed.

Lemma heappush_perm heap item : heapq.heappush heap item ≡ₚ item :: heap.
Proof.
  unfold heapq.heappush. rewrite _siftdown_perm.
  by rewrite Permutation_app_comm.
Qed.

Lemma heappop_None heap : heapq.heappop heap = None ↔ heap = [].
Proof.
  unfold heapq.heappop. destruct (last heap) as [lastelt|] eqn:Hlast.
  - split; [|by intros ->].
    by destruct (removelast heap).
  - by rewrite <- last_None.
Qed.

Lemma heappop_perm heap item heap' :
  heapq.heappop heap = Some (item, heap') → heap ≡ₚ item :: heap'.
Proof.
  unfold heapq.heappop. destruct (last heap) as [lastelt|] eqn:Hlast; [|done].
  apply last_Some in Hlast as [front ->].
  rewrite removelast_last.
  destruct front as [|returnitem rest]; intros [= <- <-]; [done|].
  rewrite _siftup_perm. simpl. f_equiv.
  apply (Permutation_app_comm rest [lastelt]).
Qed.

End heap_elements.

(** ** The heap keeps its order *)

Section heap_order.

Local Open Scope nat_scope.
Implicit Types (heap : list Node.t) (item newitem : Node.t).

(** Parent and child positions are related by a division by two. *)
#[local] Ltac Zify.zify_post_hook ::= Z.to_euclidean_division_equations.

Lemma Node_lt_true a b : Node.lt a b = true ↔ (Node.f a < Node.f b)%Z.
Proof. unfold Node.lt. apply bool_decide_eq_true. Qed.

Lemma Node_lt_false a b : Node.lt a b = false ↔ (Node.f b <= Node.f a)%Z.
Proof. unfold Node.lt. rewrite bool_decide_eq_false. lia. Qed.

Lemma _siftdown_loop_ok fuel heap pos newitem :
  pos ≤ fuel → pos < length heap →
  heap_ok_above (<[pos := newitem]> heap) pos →
  heap_ok (heapq._siftdown_loop fuel heap 0 pos newitem).
Proof.
  revert heap pos. induction fuel as [|fuel IH];
    intros heap pos Hfuel Hpos [Hrest Hgrand]; cbn [heapq._siftdown_loop].
  { intros i a b Hi. apply Hrest; lia. }
  case_bool_decide as Hlt; [|intros i a b Hi; apply Hrest; lia].
  assert (Hpar : (pos - 1) / 2 < pos) by lia.
  destruct (heap !! ((pos - 1) / 2)) as [par|] eqn:Epar; cycle 1.
  { apply lookup_ge_None in Epar. lia. }
  assert (Hpar' : <[pos := newitem]> heap !! ((pos - 1) / 2) = Some par).
  { rewrite list_lookup_insert_ne by lia. done. }
  destruct (Node.lt newitem par) eqn:Hcmp.
  - apply Node_lt_true in Hcmp.
    apply IH; [lia|rewrite length_insert; lia|].
    split.
    + intros i a b Hi Hne Ha Hb.
      destruct (decide (i = pos)) as [->|Hip].
      * rewrite list_lookup_insert_eq in Hb by (rewrite length_insert; lia).
        rewrite list_lookup_insert_ne, list_lookup_insert_eq in Ha by lia.
        simplify_eq. lia.
      * rewrite !list_lookup_insert_ne in Ha by lia.
        destruct (decide ((i - 1) / 2 = pos)) as [Hc|Hc].
        -- rewrite Hc in Hb.
           rewrite list_lookup_insert_ne, list_lookup_insert_eq in Hb by lia.
           simplify_eq.
           apply (Hgrand i a b); try done; try lia.
           by rewrite list_lookup_insert_ne by lia.
        -- destruct (decide ((i - 1) / 2 = (pos - 1) / 2)) as [Hd|Hd].
           ++ rewrite Hd in Hb.
              rewrite list_lookup_insert_eq in Hb
                by (rewrite length_insert; lia).
              simplify_eq.
              assert (Node.f par <= Node.f a)%Z; [|lia].
              apply (Hrest i a par); try done.
              ** by rewrite list_lookup_insert_ne by lia.
              ** by rewrite Hd.
           ++ rewrite !list_lookup_insert_ne in Hb by lia.
              apply (Hrest i a b); try done;
                by rewrite list_lookup_insert_ne by lia.
    + intros i a b Hpp Hi Hc Ha Hb.
      assert (Hq : (((pos - 1) / 2) - 1) / 2 < (pos - 1) / 2)
        by lia.
      rewrite !list_lookup_insert_ne in Hb by lia.
      assert (Node.f b <= Node.f par)%Z.
      { apply (Hrest ((pos - 1) / 2) par b); try done; try lia.
        by rewrite list_lookup_insert_ne by lia. }
      destruct (decide (i = pos)) as [->|Hip].
      * rewrite list_lookup_insert_ne, list_lookup_insert_eq in Ha by lia.
        by simplify_eq.
      * rewrite !list_lookup_insert_ne in Ha by lia.
        assert (Node.f par <= Node.f a)%Z; [|lia].
        apply (Hrest i a par); try done.
        -- by rewrite list_lookup_insert_ne by lia.
        -- by rewrite Hc.
  - apply Node_lt_false in Hcmp.
    intros i a b Hi Ha Hb.
    destruct (decide (i = pos)) as [->|Hip]; [|by eapply Hrest].
    rewrite list_lookup_insert_eq in Ha by lia. by simplify_eq.
Qed.

Lemma _siftdown_leaf_ok heap pos newitem :
  heap !! pos = Some newitem → length heap ≤ 2 * pos + 1 →
  (∀ i a b, 0 < i → i ≠ pos → heap !! i = Some a →
            heap !! ((i - 1) / 2) = Some b → (Node.f b <= Node.f a)%Z) →
  heap_ok (heapq._siftdown heap 0 pos).
Proof.
  intros Hpos Hleaf Hrest. unfold heapq._siftdown. rewrite Hpos.
  apply _siftdown_loop_ok; [done|by eapply lookup_lt_Some|].
  rewrite list_insert_id by done. split; [done|].
  intros i a b _ Hi Hc Ha _. apply lookup_lt_Some in Ha. lia.
Qed.

Lemma heappush_ok heap item : heap_ok heap → heap_ok (heapq.heappush heap item).
Proof.
  intros Hok. unfold heapq.heappush.
  rewrite length_app, Nat.add_sub. simpl.
  apply (_siftdown_leaf_ok _ _ item).
  - by rewrite lookup_app_r, Nat.sub_diag.
  - rewrite length_app. simpl. lia.
  - intros i a b Hi Hne Ha Hb.
    assert (i < length heap).
    { apply lookup_lt_Some in Ha. rewrite length_app in Ha. simpl in Ha. lia. }
    assert ((i - 1) / 2 < i) by lia.
    rewrite lookup_app_l in Ha, Hb by lia. by eapply Hok.
Qed.

Lemma heap_ok_hole_step heap pos c smaller :
  heap_ok_hole heap pos → pos < length heap →
  heap !! c = Some smaller → 0 < c → (c - 1) / 2 = pos →
  (∀ i a, 0 < i → (i - 1) / 2 = pos → heap !! i = Some a →
          (Node.f smaller <= Node.f a)%Z) →
  heap_ok_hole (<[pos := smaller]> heap) c.
Proof.
  intros [Hrest Hgrand] Hpos Hc Hc0 Hcp Hsmall. split.
  - intros i a b Hi Hic Hpc Ha Hb.
    destruct (decide (i = pos)) as [->|Hip].
    + rewrite list_lookup_insert_eq in Ha by done.
      rewrite list_lookup_insert_ne in Hb by lia. simplify_eq.
      apply (Hgrand c a b); try done; lia.
    + rewrite list_lookup_insert_ne in Ha by done.
      destruct (decide ((i - 1) / 2 = pos)) as [Hp|Hp].
      * rewrite Hp, list_lookup_insert_eq in Hb by done. simplify_eq.
        by apply (Hsmall i a).
      * rewrite list_lookup_insert_ne in Hb by done.
        by apply (Hrest i a b).
  - intros i a b _ Hi Hic Ha Hb.
    rewrite Hcp, list_lookup_insert_eq in Hb by done.
    rewrite list_lookup_insert_ne in Ha by lia. simplify_eq.
    apply (Hrest i a b); try done; try lia.
Qed.

Lemma _siftup_loop_ok fuel heap endpos pos heap' pos' :
  endpos = length heap → endpos ≤ fuel + pos → pos < endpos →
  heap_ok_hole heap pos →
  heapq._siftup_loop fuel heap endpos pos = (heap', pos') →
  heap_ok_hole heap' pos' ∧ length heap' = endpos ∧ pos' < endpos
  ∧ endpos ≤ 2 * pos' + 1.
Proof.
  revert heap pos. induction fuel as [|fuel IH];
    intros heap pos Hend Hfuel Hpos Hhole; cbn [heapq._siftup_loop].
  { intros [= <- <-]. split_and!; [done|done|lia|lia]. }
  case_bool_decide as Hleft; cycle 1.
  { intros [= <- <-]. split_and!; [done|done|lia|lia]. }
  destruct (heap !! (2 * pos + 1)) as [child|] eqn:Hchild; cycle 1.
  { apply lookup_ge_None in Hchild. lia. }
  assert (Hgo : ∀ c smaller,
    heap !! c = Some smaller → 0 < c → (c - 1) / 2 = pos →
    (∀ i a, 0 < i → (i - 1) / 2 = pos → heap !! i = Some a →
            (Node.f smaller <= Node.f a)%Z) →
    heapq._siftup_loop fuel (<[pos := smaller]> heap) endpos c
      = (heap', pos') →
    heap_ok_hole heap' pos' ∧ length heap' = endpos ∧ pos' < endpos
    ∧ endpos ≤ 2 * pos' + 1).
  { intros c smaller Hc Hc0 Hcp Hsmall Hloop.
    assert (c < length heap) by (by eapply lookup_lt_Some).
    apply IH in Hloop; [done|by rewrite length_insert|lia|lia|].
    apply heap_ok_hole_step; try done. lia. }
  case_bool_decide as Hright.
  - destruct (heap !! (2 * pos + 1 + 1)) as [rchild|] eqn:Hrchild; cycle 1.
    { apply lookup_ge_None in Hrchild. lia. }
    destruct (Node.lt child rchild) eqn:Hcmp; cbn [negb].
    + apply Node_lt_true in Hcmp. rewrite Hchild.
      apply Hgo; try done; try lia.
      intros i a Hi Hip Ha.
      assert (i = 2 * pos + 1 ∨ i = 2 * pos + 1 + 1) as [->| ->] by lia;
        simplify_eq; lia.
    + apply Node_lt_false in Hcmp. rewrite Hrchild.
      apply Hgo; try done; try lia.
      intros i a Hi Hip Ha.
      assert (i = 2 * pos + 1 ∨ i = 2 * pos + 1 + 1) as [->| ->] by lia;
        simplify_eq; lia.
  - rewrite Hchild. apply Hgo; try done; try lia.
    intros i a Hi Hip Ha.
    assert (i = 2 * pos + 1 ∨ i = 2 * pos + 1 + 1) as [->| ->] by lia.
    + simplify_eq. lia.
    + apply lookup_lt_Some in Ha. lia.
Qed.

Lemma _siftup_ok heap : heap_ok_hole heap 0 → heap_ok (heapq._siftup heap 0).
Proof.
  intros Hhole. unfold heapq._siftup.
  destruct (heap !! 0) as [newitem|] eqn:Hnew; cycle 1.
  { intros i a b _ Ha. apply lookup_lt_Some in Ha.
    apply lookup_ge_None in Hnew. lia. }
  destruct (heapq._siftup_loop _ _ _ _) as [heap' pos'] eqn:Hloop.
  apply _siftup_loop_ok in Hloop as ([Hrest _] & Hlen & Hpos' & Hleaf);
    [|done|lia|by eapply lookup_lt_Some|done].
  apply (_siftdown_leaf_ok _ _ newitem).
  - apply list_lookup_insert_eq. lia.
  - rewrite length_insert. lia.
  - intros i a b Hi Hne Ha Hb.
    assert (i < length heap').
    { apply lookup_lt_Some in Ha. by rewrite length_insert in Ha. }
    rewrite list_lookup_insert_ne in Ha, Hb by lia.
    apply (Hrest i a b); try done. lia.
Qed.

Lemma heappop_ok heap item heap' :
  heap_ok heap → heapq.heappop heap = Some (item, heap') →
  heap_ok heap' ∧ heap !! 0 = Some item.
Proof.
  intros Hok. unfold heapq.heappop.
  destruct (last heap) as [lastelt|] eqn:Hlast; [|done].
  apply last_Some in Hlast as [front ->].
  rewrite removelast_last.
  destruct front as [|returnitem rest]; intros [= <- <-].
  { split; [|done]. intros i a b _ Ha. by destruct i. }
  split; [|done]. apply _siftup_ok. split; [|lia].
  assert (Hshape : ∀ j c, 0 < j → (lastelt :: rest) !! j = Some c →
            ((returnitem :: rest) ++ [lastelt]) !! j = Some c).
  { intros [|j] c Hj Hc; [lia|]. by apply (lookup_app_l_Some rest). }
  intros i a b Hi _ Hp Ha Hb.
  apply (Hok i a b); [done|apply Hshape..]; try done; lia.
Qed.

(** The root of a heap is a least element. *)
Lemma heap_ok_root heap root :
  heap_ok heap → heap !! 0 = Some root →
  ∀ a, a ∈ heap → (Node.f root <= Node.f a)%Z.
Proof.
  intros Hok Hroot a [i Ha]%list_elem_of_lookup. revert a Ha.
  induction (lt_wf i) as [i _ IH]. intros a Ha.
  destruct (decide (i = 0)) as [->|Hi]; [simplify_eq; lia|].
  destruct (heap !! ((i - 1) / 2)) as [b|] eqn:Hb.
  - assert (Node.f root <= Node.f b)%Z by (apply (IH ((i - 1) / 2)); [lia|done]).
    assert (Node.f b <= Node.f a)%Z by (apply (Hok i a b); [lia|done..]).
    lia.
  - apply lookup_ge_None in Hb. apply lookup_lt_Some in Ha. lia.
Qed.

Lemma heappop_least heap item heap' :
  heap_ok heap → heapq.heappop heap = Some (item, heap') →
  ∀ a, a ∈ heap → (Node.f item <= Node.f a)%Z.
Proof.
  intros Hok Hpop. destruct (heappop_ok _ _ _ Hok Hpop) as [_ Hroot].
  by apply heap_ok_root.
Qed.

End heap_order.

(** ** One pass through the loop *)

Section one_pass.

Implicit Types (gl : Globals) (s : state) (c : Z * Z).

Lemma get_neighbors_unfold gl node :
  get_neighbors gl node =
    omap (fun d =>
            let c := (Node.x node + d.1, Node.y node + d.2) in
            if bool_decide (0 <= c.1 < GRID_SIZE gl ∧ 0 <= c.2 < GRID_SIZE gl
                            ∧ c ∉ obstacles gl)
            then Some c else None) DIRECTIONS.
Proof.
  unfold get_neighbors.
  set (step := fun (neighbors : list (Z * Z)) (d : Z * Z) => _).
  set (keep := fun d : Z * Z => _).
  assert (Hstep : ∀ acc d, step acc d = acc ++ option_list (keep d)).
  { intros acc d. unfold step, keep. simpl.
    case_bool_decide; simpl; [done|by rewrite app_nil_r]. }
  assert (Hfold : ∀ ds acc, foldl step acc ds = acc ++ omap keep ds).
  { induction ds as [|d ds IH]; intros acc; simpl.
    - by rewrite app_nil_r.
    - rewrite IH, Hstep. destruct (keep d); simpl;
        by rewrite <- app_assoc. }
  apply Hfold.
Qed.

Lemma elem_of_get_neighbors gl node c :
  c ∈ get_neighbors gl node ↔
    in_bounds gl c ∧ (c ∉ obstacles gl) ∧ unit_step (Node.pos node) c.
Proof.
  rewrite get_neighbors_unfold, list_elem_of_omap. unfold in_bounds, unit_step.
  split.
  - intros (d & Hd & Hc). simpl in Hc. case_bool_decide; [|done].
    simplify_eq. simpl in *. naive_solver.
  - intros (Hb & Hobs & d & Hd & ->). exists d. split; [done|]. simpl.
    rewrite bool_decide_eq_true_2; [done|]. simpl in *. naive_solver.
Qed.

Lemma length_get_neighbors gl node : (length (get_neighbors gl node) ≤ 4)%nat.
Proof.
  rewrite get_neighbors_unfold. unfold DIRECTIONS. simpl.
  repeat case_bool_decide; simpl; lia.
Qed.

(** The [for] loop pushes a node for each neighbor that is not closed. *)
Lemma visit_neighbors_open end_ current closed ns acc :
  (foldl (visit_neighbor end_ current closed) acc ns).1
    ≡ₚ (child_node end_ current <$> filter (.∉ closed) ns) ++ acc.1.
Proof.
  revert acc. induction ns as [|c ns IH]; intros acc; simpl; [done|].
  rewrite IH. unfold visit_neighbor. rewrite filter_cons.
  case_bool_decide; destruct (decide (c ∉ closed)); try done; simpl.
  rewrite heappush_perm. by rewrite Permutation_middle.
Qed.

Lemma visit_neighbors_ok end_ current closed ns acc :
  heap_ok acc.1 → heap_ok (foldl (visit_neighbor end_ current closed) acc ns).1.
Proof.
  revert acc. induction ns as [|c ns IH]; intros acc Hok; simpl; [done|].
  apply IH. unfold visit_neighbor. case_bool_decide; [done|].
  by apply heappush_ok.
Qed.

(** A pass that goes round again popped a node that is not at [end_],
    closed its coordinate and pushed its open neighbors. *)
Lemma astar_body_Continue end_ s s' :
  astar_body end_ s = Continue s' →
  ∃ current rest,
    heapq.heappop (open_set s) = Some (current, rest)
    ∧ open_set s ≡ₚ current :: rest
    ∧ Node.pos current ≠ end_
    ∧ globals s' = globals s
    ∧ closed_set s' = closed_set s ∪ {[Node.pos current]}
    ∧ open_set s' ≡ₚ
        (child_node end_ current <$>
           filter (.∉ closed_set s') (get_neighbors (globals s) current))
        ++ rest
    ∧ (heap_ok (open_set s) → heap_ok (open_set s')).
Proof.
  unfold astar_body.
  destruct (heapq.heappop (open_set s)) as [[current rest]|] eqn:Hpop; [|done].
  case_bool_decide as Hend; [done|]. intros [= <-]. simpl.
  exists current, rest. split_and!; try done.
  - by apply heappop_perm.
  - apply visit_neighbors_open.
  - intros Hok. apply visit_neighbors_ok. simpl.
    by eapply heappop_ok.
Qed.

(** A pass that returns found the heap empty, or popped a node at [end_]. *)
Lemma astar_body_Return end_ s r gl :
  astar_body end_ s = Return r gl →
  gl = globals s ∧
  ((r = None ∧ open_set s = []) ∨
   ∃ current rest,
     heapq.heappop (open_set s) = Some (current, rest)
     ∧ Node.pos current = end_
     ∧ r = Some (reverse (parent_chain current))).
Proof.
  unfold astar_body.
  destruct (heapq.heappop (open_set s)) as [[current rest]|] eqn:Hpop.
  - case_bool_decide as Hend; [|done]. intros [= <- <-].
    split; [done|]. right. by exists current, rest.
  - intros [= <- <-]. split; [done|]. left. by apply heappop_None in Hpop.
Qed.

End one_pass.

(** ** Running the loop *)

Section running.

Local Open Scope nat_scope.
Variable end_ : Z * Z.
Implicit Types (s : state) (n m k : nat).

Lemma astar_iter_add n m s :
  astar_iter end_ (n + m) s =
    match astar_iter end_ n s with
    | Return r gl => Return r gl
    | Continue s' => astar_iter end_ m s'
    end.
Proof.
  revert s. induction n as [|n IH]; intros s; simpl; [done|].
  destruct (astar_body end_ s); [done|]. apply IH.
Qed.

Lemma astar_while_iter k s :
  astar_while end_ k s = astar_iter end_ (2 ^ k) s.
Proof.
  revert s. induction k as [|k IH]; intros s.
  - simpl. by destruct (astar_body end_ s).
  - cbn [astar_while]. rewrite Nat.pow_succ_r', Nat.mul_comm.
    change (2 ^ k * 2) with (2 ^ k * (1 + 1)).
    rewrite Nat.mul_add_distr_l, Nat.mul_1_r, astar_iter_add, !IH.
    destruct (astar_iter end_ (2 ^ k) s); [done|]. by rewrite IH.
Qed.

Lemma astar_iter_Return_mono n m s r gl :
  n ≤ m → astar_iter end_ n s = Return r gl → astar_iter end_ m s = Return r gl.
Proof.
  intros Hle Hn. replace m with (n + (m - n)) by lia.
  by rewrite astar_iter_add, Hn.
Qed.

(** A property that every pass keeps holds as long as the loop runs. *)
Lemma astar_iter_invariant (I : state → Prop) :
  (∀ s s', I s → astar_body end_ s = Continue s' → I s') →
  ∀ n s s', I s → astar_iter end_ n s = Continue s' → I s'.
Proof.
  intros Hstep n. induction n as [|n IH]; intros s s' Hs; simpl.
  - by intros [= <-].
  - destruct (astar_body end_ s) as [|s1] eqn:Hbody; [done|].
    apply IH. by eapply Hstep.
Qed.

Lemma astar_iter_Continue_le n m s s' :
  m ≤ n → astar_iter end_ n s = Continue s' →
  ∃ s'', astar_iter end_ m s = Continue s''.
Proof.
  intros Hle Hn. replace n with (m + (n - m)) in Hn by lia.
  rewrite astar_iter_add in Hn.
  destruct (astar_iter end_ m s); [done|by eexists].
Qed.

End running.

(** ** The loop ends *)

Section termination.

Local Open Scope nat_scope.
Implicit Types (gl : Globals) (s : state) (c : Z * Z)
  (closed : gset (Z * Z)).

Lemma elem_of_cells gl c : c ∈ cells gl ↔ in_bounds gl c.
Proof.
  unfold cells, in_bounds. rewrite list_elem_of_bind. split.
  - intros (x & Hc & Hx). apply list_elem_of_fmap in Hc as (y & -> & Hy).
    apply elem_of_seqZ in Hx, Hy. simpl. lia.
  - intros [Hx Hy]. exists c.1. split.
    + apply list_elem_of_fmap. exists c.2. split; [by destruct c|].
      apply elem_of_seqZ. lia.
    + apply elem_of_seqZ. lia.
Qed.

Lemma length_cells gl :
  length (cells gl) = Z.to_nat (GRID_SIZE gl) * Z.to_nat (GRID_SIZE gl).
Proof.
  unfold cells.
  assert (Hbind : ∀ (f : Z → list (Z * Z)) (l : list Z) k,
            (∀ x, length (f x) = k) → length (l ≫= f) = length l * k).
  { intros f l k Hf. induction l as [|x l IH]; [done|].
    rewrite bind_cons, length_app, Hf, IH. simpl. lia. }
  rewrite (Hbind _ _ (Z.to_nat (GRID_SIZE gl))).
  - by rewrite length_seqZ.
  - intros x. by rewrite length_fmap, length_seqZ.
Qed.

Lemma length_filter_mono {A} (P Q : A → Prop)
    `{∀ x, Decision (P x)} `{∀ x, Decision (Q x)} (l : list A) :
  (∀ x, P x → Q x) → length (filter P l) ≤ length (filter Q l).
Proof.
  intros HPQ. induction l as [|x l IH]; [done|].
  rewrite !filter_cons.
  destruct (decide (P x)), (decide (Q x)); simpl; naive_solver lia.
Qed.

Lemma length_filter_strict {A} (P Q : A → Prop)
    `{∀ x, Decision (P x)} `{∀ x, Decision (Q x)} (l : list A) x0 :
  (∀ x, P x → Q x) → x0 ∈ l → Q x0 → ¬ P x0 →
  length (filter P l) < length (filter Q l).
Proof.
  intros HPQ Hin HQ HP. induction l as [|x l IH]; [by apply elem_of_nil in Hin|].
  rewrite !filter_cons. apply elem_of_cons in Hin as [<-|Hin].
  - rewrite decide_False, decide_True by done. simpl.
    pose proof (length_filter_mono P Q l HPQ). lia.
  - specialize (IH Hin).
    destruct (decide (P x)), (decide (Q x)); simpl; naive_solver lia.
Qed.

Lemma filter_ext_in {A} (P Q : A → Prop)
    `{∀ x, Decision (P x)} `{∀ x, Decision (Q x)} (l : list A) :
  (∀ x, x ∈ l → P x ↔ Q x) → filter P l = filter Q l.
Proof.
  induction l as [|x l IH]; intros HPQ; [done|].
  rewrite !filter_cons, IH by (intros y Hy; apply HPQ; by right).
  pose proof (HPQ x (list_elem_of_here _ _)).
  destruct (decide (P x)), (decide (Q x)); naive_solver.
Qed.

Lemma open_cells_mono gl closed closed' :
  closed ⊆ closed' →
  length (open_cells gl closed') ≤ length (open_cells gl closed).
Proof. intros ?. apply length_filter_mono. set_solver. Qed.

Lemma open_cells_close gl closed c :
  c ∈ open_cells gl closed →
  length (open_cells gl (closed ∪ {[c]})) < length (open_cells gl closed).
Proof.
  intros [Hc Hin]%list_elem_of_filter.
  apply (length_filter_strict _ _ _ c); [set_solver|done|done|set_solver].
Qed.

Lemma open_cells_close_other gl closed c :
  c ∉ open_cells gl closed →
  open_cells gl (closed ∪ {[c]}) = open_cells gl closed.
Proof.
  intros Hc. apply filter_ext_in. intros x Hx.
  split; [set_solver|]. intros Hxc. apply not_elem_of_union. split; [done|].
  apply not_elem_of_singleton. intros ->. apply Hc.
  by apply list_elem_of_filter.
Qed.

Lemma pow5_pos u : 1 ≤ 5 ^ u.
Proof. pose proof (Nat.pow_nonzero 5 u). lia. Qed.

Lemma pow5_lt u u' : u' < u → 5 * 5 ^ u' ≤ 5 ^ u.
Proof.
  intros Hlt. rewrite <- Nat.pow_succ_r'. apply Nat.pow_le_mono_r; lia.
Qed.

Lemma node_weight_close gl closed c n :
  node_weight gl (closed ∪ {[c]}) n ≤ node_weight gl closed n.
Proof.
  unfold node_weight.
  destruct (decide (c ∈ open_cells gl closed)) as [Hc|Hc].
  - pose proof (pow5_lt _ _ (open_cells_close gl closed c Hc)) as Hlt.
    pose proof (pow5_pos (length (open_cells gl (closed ∪ {[c]})))).
    repeat case_decide; lia.
  - rewrite open_cells_close_other by done. lia.
Qed.

Lemma sum_list_with_le {A} (f g : A → nat) (l : list A) :
  (∀ x, x ∈ l → f x ≤ g x) → sum_list_with f l ≤ sum_list_with g l.
Proof.
  induction l as [|x l IH]; intros Hfg; simpl; [done|].
  pose proof (Hfg x (list_elem_of_here _ _)).
  assert (sum_list_with f l ≤ sum_list_with g l); [|lia].
  apply IH. intros y Hy. apply Hfg. by right.
Qed.

Lemma sum_list_with_bound {A} (f : A → nat) (l : list A) b :
  (∀ x, x ∈ l → f x ≤ b) → sum_list_with f l ≤ length l * b.
Proof.
  induction l as [|x l IH]; intros Hb; simpl; [done|].
  pose proof (Hb x (list_elem_of_here _ _)).
  assert (sum_list_with f l ≤ length l * b); [|lia].
  apply IH. intros y Hy. apply Hb. by right.
Qed.

Lemma pos_child_node end_ current c :
  Node.pos (child_node end_ current c) = c.
Proof. by destruct c. Qed.

(** Every pass that goes round again lowers the weight of the search. *)
Lemma search_weight_decreases end_ s s' :
  astar_body end_ s = Continue s' → search_weight s' < search_weight s.
Proof.
  intros (current & rest & _ & Hperm & _ & Hgl & Hcl & Hopen & _)
    %astar_body_Continue.
  unfold search_weight. rewrite Hopen, Hperm, Hgl, Hcl, sum_list_with_app.
  simpl. set (gl := globals s). set (closed := closed_set s).
  set (closed' := closed ∪ {[Node.pos current]}).
  set (pushed := child_node end_ current <$> _).
  assert (Hrest : sum_list_with (node_weight gl closed') rest
                  ≤ sum_list_with (node_weight gl closed) rest).
  { apply sum_list_with_le. intros n _. apply node_weight_close. }
  assert (Hpushed : sum_list_with (node_weight gl closed') pushed
                    ≤ 4 * 5 ^ length (open_cells gl closed')).
  { etrans.
    - apply (sum_list_with_bound _ _ (5 ^ length (open_cells gl closed'))).
      intros n (c & -> & [Hc Hin]%list_elem_of_filter)%list_elem_of_fmap.
      unfold node_weight. rewrite pos_child_node, decide_True; [done|].
      apply list_elem_of_filter. split; [done|].
      apply elem_of_cells. by apply elem_of_get_neighbors in Hin as [? _].
    - apply Nat.mul_le_mono_r. unfold pushed.
      rewrite length_fmap, length_filter. apply length_get_neighbors. }
  assert (4 * 5 ^ length (open_cells gl closed') < node_weight gl closed current);
    [|lia].
  unfold node_weight.
  destruct (decide (Node.pos current ∈ open_cells gl closed)) as [Hc|Hc].
  - pose proof (pow5_lt _ _ (open_cells_close gl closed _ Hc)).
    pose proof (pow5_pos (length (open_cells gl closed'))).
    unfold closed'. lia.
  - unfold closed'. rewrite open_cells_close_other by done. lia.
Qed.

(** From every state the loop returns, after no more passes that go
    round again than the weight of the state. *)
Lemma astar_iter_returns end_ s :
  ∃ n s' r gl,
    n ≤ search_weight s ∧ astar_iter end_ n s = Continue s'
    ∧ astar_body end_ s' = Return r gl.
Proof.
  remember (search_weight s) as w eqn:Hw. revert s Hw.
  induction (lt_wf w) as [w _ IH]. intros s ->.
  destruct (astar_body end_ s) as [r gl|s1] eqn:Hbody.
  - exists 0, s, r, gl. split_and!; [lia|done|done].
  - pose proof (search_weight_decreases _ _ _ Hbody) as Hlt.
    destruct (IH _ Hlt s1 eq_refl) as (n & s' & r & gl & Hn & Hiter & Hret).
    exists (S n), s', r, gl. split_and!; [lia| |done].
    simpl. by rewrite Hbody.
Qed.

Lemma search_weight_init gl start end_ :
  search_weight (astar_init gl start end_)
    ≤ 1 + 4 * 5 ^ (Z.to_nat (GRID_SIZE gl) * Z.to_nat (GRID_SIZE gl)).
Proof.
  unfold search_weight, astar_init.
  cbn [open_set globals closed_set]. rewrite heappush_perm.
  cbn [sum_list_with]. unfold node_weight. rewrite <- length_cells.
  assert (5 ^ length (open_cells gl ∅) ≤ 5 ^ length (cells gl)).
  { apply Nat.pow_le_mono_r; [lia|]. apply length_filter. }
  case_decide; lia.
Qed.

Lemma astar_fuel_enough gl :
  2 + 4 * 5 ^ (Z.to_nat (GRID_SIZE gl) * Z.to_nat (GRID_SIZE gl))
    ≤ 2 ^ astar_fuel gl.
Proof.
  unfold astar_fuel.
  generalize (Z.to_nat (GRID_SIZE gl) * Z.to_nat (GRID_SIZE gl)). intros c.
  rewrite Nat.pow_add_r, Nat.pow_mul_r.
  change (2 ^ 3) with 8.
  assert (5 ^ c ≤ 8 ^ c) by (apply Nat.pow_le_mono_l; lia).
  pose proof (pow5_pos c). lia.
Qed.

(** [astar] returns what the loop returns, after at most
    [1 + 4 * 5 ^ (GRID_SIZE * GRID_SIZE)] passes that go round again. *)
Lemma astar_run gl start end_ :
  ∃ n s',
    n ≤ 1 + 4 * 5 ^ (Z.to_nat (GRID_SIZE gl) * Z.to_nat (GRID_SIZE gl))
    ∧ astar_iter end_ n (astar_init gl start end_) = Continue s'
    ∧ astar_body end_ s'
        = Return (astar gl start end_).1 (astar gl start end_).2.
Proof.
  destruct (astar_iter_returns end_ (astar_init gl start end_))
    as (n & s' & r & gl' & Hn & Hiter & Hret).
  pose proof (search_weight_init gl start end_).
  pose proof (astar_fuel_enough gl).
  exists n, s'. split_and!; [lia|done|].
  assert (Hfull : astar_iter end_ (S n) (astar_init gl start end_)
                  = Return r gl').
  { replace (S n) with (n + 1) by lia.
    rewrite astar_iter_add, Hiter. simpl. by rewrite Hret. }
  unfold astar. rewrite astar_while_iter.
  rewrite (astar_iter_Return_mono end_ (S n) _ _ r gl'); [done|lia|done].
Qed.

End termination.

(** ** Routes *)

Section routes.

Implicit Types (p : list (Z * Z)) (a b c : Z * Z).

Lemma is_route_snoc p a b :
  is_route p → last p = Some a → unit_step a b → is_route (p ++ [b]).
Proof.
  intros Hp Hlast Hstep. induction p as [|x [|y p] IH]; [done| |].
  - simpl in *. by simplify_eq.
  - destruct Hp as [Hxy Hp]. split; [done|]. by apply IH.
Qed.

Lemma heuristic_step a a' b : unit_step a a' → heuristic a b <= 1 + heuristic a' b.
Proof.
  intros (d & Hd & ->). unfold heuristic, DIRECTIONS in *. simpl.
  rewrite !elem_of_cons, elem_of_nil in Hd.
  destruct Hd as [->|[->|[->|[->|[]]]]]; simpl; lia.
Qed.

Lemma unit_step_sym a b : unit_step a b → unit_step b a.
Proof.
  intros (d & Hd & ->). unfold unit_step, DIRECTIONS in *.
  rewrite !elem_of_cons, elem_of_nil in Hd. destruct a as [ax ay].
  destruct Hd as [->|[->|[->|[->|[]]]]]; simpl;
    [exists (1, 0)|exists (-1, 0)|exists (0, 1)|exists (0, -1)];
    (split; [set_solver|simpl; f_equal; lia]).
Qed.

Lemma heuristic_route p a b :
  head p = Some a → last p = Some b → is_route p →
  heuristic a b <= Z.of_nat (length p) - 1.
Proof.
  revert a. induction p as [|x [|y p] IH]; intros a Hhead Hlast Hp; [done| |].
  - simpl in *. simplify_eq. unfold heuristic. lia.
  - destruct Hp as [Hxy Hp]. simpl in Hhead. simplify_eq.
    rewrite last_cons_cons in Hlast.
    specialize (IH y eq_refl Hlast Hp).
    pose proof (heuristic_step _ _ b Hxy).
    cbn [length] in *. lia.
Qed.

End routes.

(** C5: [heuristic a b] is [|a.x - b.x| + |a.y - b.y|], a non-negative
    integer; it is admissible (it is at most the number of moves of every
    four-directional obstacle-free route from [a] to [b], on every grid) and
    consistent (for a neighbor [a'] of [a] one orthogonal step away,
    [heuristic a b <= 1 + heuristic a' b]). *)
Theorem heuristic_manhattan_admissible_consistent :
  (∀ a b, heuristic a b = Z.abs (a.1 - b.1) + Z.abs (a.2 - b.2)
          ∧ 0 <= heuristic a b)
  ∧ (∀ gl p a b, route_from_to gl p a b →
                 heuristic a b <= Z.of_nat (length p) - 1)
  ∧ (∀ a a' b, unit_step a a' → heuristic a b <= 1 + heuristic a' b).
Proof.
  split_and!.
  - intros a b. unfold heuristic. lia.
  - intros gl p a b (Hhead & Hlast & Hp & _). by apply heuristic_route.
  - apply heuristic_step.
Qed.

Lemma heuristic_manhattan_admissible_consistent_witness :
  route_from_to (python4_globals ∅) [(0, 0); (1, 0); (1, 1); (2, 1)] (0, 0) (2, 1)
  ∧ heuristic (0, 0) (2, 1) <= 3
  ∧ unit_step (0, 0) (1, 0)
  ∧ heuristic (0, 0) (2, 1) <= 1 + heuristic (1, 0) (2, 1).
Proof.
  assert (Hroute : route_from_to (python4_globals ∅)
                     [(0, 0); (1, 0); (1, 1); (2, 1)] (0, 0) (2, 1)).
  { split_and!; [done|done| |set_solver].
    simpl. split_and!; [exists (1, 0)|exists (0, 1)|exists (1, 0)|done];
      (split; [set_solver|done]). }
  assert (Hstep : unit_step (0, 0) (1, 0)).
  { exists (1, 0). split; [set_solver|done]. }
  destruct heuristic_manhattan_admissible_consistent as (_ & Hadm & Hcons).
  split_and!; [done| |done|].
  - apply (Hadm _ _ _ _ Hroute).
  - apply (Hcons _ _ _ Hstep).
Defined.

(** ** What [astar] returns *)

Section results.

Local Open Scope nat_scope.
Implicit Types (gl : Globals) (s : state) (start : Z * Z).

(** A run of the loop that returns gives the result of [astar]. *)
Lemma astar_iter_astar gl start end_ n r gl' :
  astar_iter end_ n (astar_init gl start end_) = Return r gl' →
  astar gl start end_ = (r, gl').
Proof.
  intros Hn.
  destruct (astar_run gl start end_) as (m & s' & _ & Hiter & Hret).
  assert (Hm : astar_iter end_ (m + 1) (astar_init gl start end_)
               = Return (astar gl start end_).1 (astar gl start end_).2).
  { rewrite astar_iter_add, Hiter. simpl. by rewrite Hret. }
  apply (astar_iter_Return_mono _ _ (n + (m + 1))) in Hn; [|lia].
  apply (astar_iter_Return_mono _ _ (n + (m + 1))) in Hm; [|lia].
  rewrite Hn in Hm. injection Hm as -> ->. by destruct (astar _ _ _).
Qed.

(** What holds at the start and is kept by every pass holds in the state
    in which the loop returns the result of [astar]. *)
Lemma astar_invariant (I : state → Prop) gl start end_ :
  I (astar_init gl start end_) →
  (∀ s s', I s → astar_body end_ s = Continue s' → I s') →
  ∃ s, I s ∧ astar_body end_ s
              = Return (astar gl start end_).1 (astar gl start end_).2.
Proof.
  intros Hinit Hstep.
  destruct (astar_run gl start end_) as (n & s & _ & Hiter & Hret).
  exists s. split; [|done]. by eapply astar_iter_invariant.
Qed.

Lemma heappop_singleton (item : Node.t) :
  heapq.heappop (heapq.heappush [] item) = Some (item, []).
Proof. done. Qed.

End results.

(** C6: on every grid, for every in-bounds unblocked coordinate [c],
    [find_path] from [c] to [c] returns the single-element path [[c]]. *)
Theorem find_path_start_is_end gl c :
  in_bounds gl c → c ∉ obstacles gl → find_path gl c c = Some [c].
Proof.
  intros _ _. unfold find_path.
  rewrite (astar_iter_astar gl c c 1 (Some [c]) gl); [done|].
  simpl. unfold astar_body, astar_init. cbn [open_set].
  rewrite heappop_singleton. rewrite bool_decide_eq_true_2 by (by destruct c).
  by destruct c.
Qed.

Lemma find_path_start_is_end_witness :
  find_path (python4_globals {[(3, 4)]}) (7, 2) (7, 2) = Some [(7, 2)].
Proof.
  apply find_path_start_is_end.
  - unfold in_bounds. simpl. lia.
  - set_solver.
Defined.

(** C8: [find_path] leaves the grid globals as they were: after the call,
    whether it returned a path or [None], the obstacle set and the grid
    dimension are those before the call. *)
Theorem astar_keeps_globals gl start end_ :
  (astar gl start end_).2 = gl
  ∧ obstacles (astar gl start end_).2 = obstacles gl
  ∧ GRID_SIZE (astar gl start end_).2 = GRID_SIZE gl.
Proof.
  assert (Hgl : (astar gl start end_).2 = gl); [|by rewrite Hgl].
  destruct (astar_invariant (fun s => globals s = gl) gl start end_)
    as (s & Hs & Hret).
  - done.
  - intros s s' Hs (current & rest & _ & _ & _ & Hgl & _)%astar_body_Continue.
    by rewrite Hgl.
  - apply astar_body_Return in Hret as [-> _]. done.
Qed.

(** ** The nodes on the heap *)

Section heap_nodes.

Implicit Types (gl : Globals) (s : state) (start c : Z * Z) (n : Node.t).

Lemma Node_ind (P : Node.t → Prop) :
  (∀ nx ny g h f, P (Node.Build nx ny g h f None)) →
  (∀ nx ny g h f p, P p → P (Node.Build nx ny g h f (Some p))) →
  ∀ n, P n.
Proof.
  intros Hroot Hchild. fix IH 1.
  intros [nx ny g h f [p|]]; [apply Hchild, IH|apply Hroot].
Qed.

Lemma node_ok_route gl start n :
  node_ok gl start n →
  route_from_to gl (reverse (parent_chain n)) start (Node.pos n).
Proof.
  induction n as [nx ny g h f|nx ny g h f p IH] using Node_ind.
  - intros [Hobs <-]. split_and!; try done.
    intros c ->%list_elem_of_singleton. done.
  - intros (Hobs & Hstep & Hp).
    destruct (IH Hp) as (Hhead & Hlast & Hroute & Hfree).
    cbn [parent_chain]. rewrite reverse_cons.
    change (match p with Node.Build cx cy _ _ _ par =>
              (cx, cy) :: match par with Some p0 => parent_chain p0
                                       | None => [] end end)
      with (parent_chain p).
    split_and!.
    + destruct (reverse (parent_chain p)); [done|]. done.
    + apply last_snoc.
    + by eapply is_route_snoc.
    + intros c [Hc| ->%list_elem_of_singleton]%elem_of_app; [by apply Hfree|done].
Qed.

(** A property of nodes that the start node has and that a node passes
    on to the nodes made for its neighbors holds for all nodes on the heap
    when the loop returns. *)
Lemma astar_nodes_invariant (P : Node.t → Prop) gl start end_ :
  P (Node.init start.1 start.2 0 (heuristic start end_) None) →
  (∀ current c, P current → Node.pos current ≠ end_ →
                c ∈ get_neighbors gl current → P (child_node end_ current c)) →
  ∃ s, (∀ n, n ∈ open_set s → P n) ∧ globals s = gl
       ∧ astar_body end_ s
           = Return (astar gl start end_).1 (astar gl start end_).2.
Proof.
  intros Hstart Hchild.
  destruct (astar_invariant
              (fun s => (∀ n, n ∈ open_set s → P n) ∧ globals s = gl)
              gl start end_) as (s & [Hs Hgl] & Hret).
  - split; [|done]. unfold astar_init. cbn [open_set].
    intros n. rewrite heappush_perm. by intros ->%list_elem_of_singleton.
  - intros s s' [Hs Hgl]
      (current & rest & _ & Hperm & Hne & Hgl' & _ & Hopen & _)
      %astar_body_Continue.
    split; [|congruence]. intros n. rewrite Hopen, elem_of_app.
    intros [(c & -> & [_ Hc]%list_elem_of_filter)%list_elem_of_fmap|Hn].
    + apply Hchild; [|done|by rewrite <- Hgl].
      apply Hs. rewrite Hperm. by left.
    + apply Hs. rewrite Hperm. by right.
  - by exists s.
Qed.

(** The same, read off at the result: [astar] returns [None], or the path
    of a node with the property whose coordinate is [end_]. *)
Lemma astar_result_cases (P : Node.t → Prop) gl start end_ :
  P (Node.init start.1 start.2 0 (heuristic start end_) None) →
  (∀ current c, P current → Node.pos current ≠ end_ →
                c ∈ get_neighbors gl current → P (child_node end_ current c)) →
  find_path gl start end_ = None ∨
  ∃ current, P current ∧ Node.pos current = end_
             ∧ find_path gl start end_ = Some (reverse (parent_chain current)).
Proof.
  intros Hstart Hchild.
  destruct (astar_nodes_invariant P gl start end_ Hstart Hchild)
    as (s & Hs & _ & Hret).
  unfold find_path.
  apply astar_body_Return in Hret
    as [_ [[-> _]|(current & rest & Hpop & Hpos & ->)]]; [by left|].
  right. exists current. split_and!; [|done|done].
  apply Hs. rewrite (heappop_perm _ _ _ Hpop). by left.
Qed.

End heap_nodes.

(** C1: on every grid, for in-bounds unblocked [start] and [end_], a path
    returned by [find_path] is a valid route: it begins at [start], ends at
    [end_], consecutive coordinates are one orthogonal unit step apart, and
    no coordinate of it is an obstacle. *)
Theorem find_path_is_route gl start end_ path :
  in_bounds gl start → start ∉ obstacles gl →
  in_bounds gl end_ → end_ ∉ obstacles gl →
  find_path gl start end_ = Some path →
  route_from_to gl path start end_.
Proof.
  intros _ Hstart _ _ Hpath.
  destruct (astar_result_cases (node_ok gl start) gl start end_)
    as [Hnone|(current & Hok & Hpos & Hsome)].
  - simpl. by destruct start.
  - intros current c Hcur _ (_ & Hobs & Hstep)%elem_of_get_neighbors.
    destruct c as [cx cy]. simpl. done.
  - congruence.
  - rewrite Hsome in Hpath. injection Hpath as <-. rewrite <- Hpos.
    by apply node_ok_route.
Qed.

(** C10: on every grid, for distinct [start] and [end_] with [end_] an
    obstacle, [find_path] returns [None]. *)
Theorem find_path_blocked_end gl start end_ :
  start ≠ end_ → end_ ∈ obstacles gl → find_path gl start end_ = None.
Proof.
  intros Hne Hend.
  destruct (astar_result_cases (fun n => Node.pos n ≠ end_) gl start end_)
    as [Hnone|(current & Hcur & Hpos & _)]; [| |done|done].
  - by destruct start.
  - intros current c _ _ (_ & Hobs & _)%elem_of_get_neighbors.
    rewrite pos_child_node. by intros ->.
Qed.

Lemma find_path_is_route_witness :
  route_from_to (python4_globals {[(1, 0)]})
    [(0, 0); (0, 1); (1, 1); (2, 1); (2, 0)] (0, 0) (2, 0).
Proof.
  apply find_path_is_route.
  - unfold in_bounds. simpl. lia.
  - set_solver.
  - unfold in_bounds. simpl. lia.
  - set_solver.
  - vm_compute. reflexivity.
Defined.

Lemma find_path_blocked_end_witness :
  find_path (python4_globals {[(1, 1)]}) (0, 0) (1, 1) = None.
Proof.
  apply find_path_blocked_end.
  - done.
  - set_solver.
Defined.

(** C7, as amended: on every grid on which all four orthogonal neighbors
    of [end_] are obstacles or out of bounds, for in-bounds unblocked
    [start] and [end_] that are distinct, [find_path] returns [None]. *)
Theorem find_path_enclosed_end gl start end_ :
  in_bounds gl start → start ∉ obstacles gl →
  in_bounds gl end_ → end_ ∉ obstacles gl →
  enclosed gl end_ → start ≠ end_ →
  find_path gl start end_ = None.
Proof.
  intros Hsb Hso _ _ Hencl Hne.
  destruct (astar_result_cases
              (fun n => Node.pos n ≠ end_ ∧ in_bounds gl (Node.pos n)
                        ∧ Node.pos n ∉ obstacles gl) gl start end_)
    as [Hnone|(current & [Hcur _] & Hpos & _)]; [| |done|done].
  - by destruct start.
  - intros current c (_ & Hcb & Hco) _ (Hb & Hobs & Hstep)%elem_of_get_neighbors.
    rewrite pos_child_node. split_and!; [|done|done].
    intros ->. apply unit_step_sym in Hstep.
    destruct (Hencl _ Hstep); done.
Qed.

Lemma find_path_enclosed_end_witness :
  find_path (python4_globals {[(4, 5); (6, 5); (5, 4); (5, 6)]}) (0, 0) (5, 5)
    = None.
Proof.
  apply find_path_enclosed_end.
  - unfold in_bounds. simpl. lia.
  - set_solver.
  - unfold in_bounds. simpl. lia.
  - set_solver.
  - intros c (d & Hd & ->). left. unfold DIRECTIONS in Hd. set_solver.
  - done.
Defined.

(** C7 as stated, without [start ≠ end_], fails: with [start = end_] the
    search returns the one-coordinate path although [end_] is enclosed. *)
Lemma find_path_enclosed_end_counterexample :
  let gl := python4_globals {[(4, 5); (6, 5); (5, 4); (5, 6)]} in
  in_bounds gl (5, 5) ∧ ((5, 5) ∉ obstacles gl) ∧ enclosed gl (5, 5)
  ∧ find_path gl (5, 5) (5, 5) = Some [(5, 5)]
  ∧ find_path gl (5, 5) (5, 5) ≠ None.
Proof.
  assert (Hpath : find_path (python4_globals {[(4, 5); (6, 5); (5, 4); (5, 6)]})
                    (5, 5) (5, 5) = Some [(5, 5)]) by (vm_compute; reflexivity).
  simpl. split_and!.
  - unfold in_bounds. simpl. lia.
  - set_solver.
  - intros c (d & Hd & ->). left. unfold DIRECTIONS in Hd. set_solver.
  - done.
  - by rewrite Hpath.
Qed.

Section without_came_from.

Variable end_ : Z * Z.

Lemma visit_neighbors_forget current closed ns acc :
  foldl (NoCameFrom.visit_neighbor end_ current closed) acc.1 ns
    = (foldl (visit_neighbor end_ current closed) acc ns).1.
Proof.
  revert acc. induction ns as [|c ns IH]; intros acc; simpl; [done|].
  rewrite <- IH. f_equal.
  unfold NoCameFrom.visit_neighbor, visit_neighbor. by case_bool_decide.
Qed.

Lemma astar_body_forget s :
  NoCameFrom.astar_body end_ (forget s)
    = forget_outcome (astar_body end_ s).
Proof.
  unfold NoCameFrom.astar_body, astar_body. simpl.
  destruct (heapq.heappop (open_set s)) as [[current rest]|]; [|done].
  case_bool_decide; [done|]. simpl. unfold forget. simpl.
  f_equal. f_equal.
  apply (visit_neighbors_forget current _ _ (rest, came_from s)).
Qed.

Lemma astar_while_forget k s :
  NoCameFrom.astar_while end_ k (forget s)
    = forget_outcome (astar_while end_ k s).
Proof.
  revert s. induction k as [|k IH]; intros s; simpl.
  - apply astar_body_forget.
  - rewrite IH. destruct (astar_while end_ k s) as [r gl|s']; simpl; [done|].
    apply IH.
Qed.

End without_came_from.

(** C9: the returned path comes from the popped node's own predecessor
    chain and does not depend on the predecessor map: on every grid, for
    every [start] and [end_], the engine that leaves the [came_from] map out
    altogether returns what [astar] returns. *)
Theorem astar_without_came_from gl start end_ :
  NoCameFrom.astar gl start end_ = astar gl start end_
  ∧ NoCameFrom.find_path gl start end_ = find_path gl start end_.
Proof.
  assert (Heq : NoCameFrom.astar gl start end_ = astar gl start end_).
  { unfold NoCameFrom.astar, astar.
    change (NoCameFrom.astar_init gl start end_)
      with (forget (astar_init gl start end_)).
    rewrite astar_while_forget.
    by destruct (astar_while end_ (astar_fuel gl) (astar_init gl start end_)). }
  split; [done|]. unfold NoCameFrom.find_path, find_path. by rewrite Heq.
Qed.

(** ** Popping a node whose coordinate is closed *)

(** Decides a closed decidable proposition by evaluating its decision. *)
Ltac by_evaluation :=
  match goal with
  | |- ¬ ?P => apply (bool_decide_eq_false_1 P)
  | |- ?P => apply (bool_decide_eq_true_1 P)
  end; vm_compute; reflexivity.

(** C3, as amended: there is no closed-set check at pop time.  When a node
    is popped whose coordinate is already in the closed set (and is not
    [end_]), the pass expands it like any other node: the closed set stays
    as it is, and a new node is pushed for every in-bounds unblocked
    neighbor that is not in the closed set; only the neighbors that are
    closed are skipped. *)
Theorem astar_body_closed_node end_ s current rest :
  heapq.heappop (open_set s) = Some (current, rest) →
  Node.pos current ∈ closed_set s →
  Node.pos current ≠ end_ →
  ∃ s', astar_body end_ s = Continue s'
        ∧ closed_set s' = closed_set s
        ∧ open_set s' ≡ₚ
            (child_node end_ current <$>
               filter (.∉ closed_set s) (get_neighbors (globals s) current))
            ++ rest.
Proof.
  intros Hpop Hclosed Hne. unfold astar_body. rewrite Hpop.
  rewrite bool_decide_eq_false_2 by done.
  assert (Hsame : closed_set s ∪ {[Node.pos current]} = closed_set s)
    by set_solver.
  eexists. split; [done|]. simpl. rewrite Hsame. split; [done|].
  apply visit_neighbors_open.
Qed.

Lemma astar_body_closed_node_witness :
  ∃ s', astar_body (2, 2) revisit_state = Continue s'
        ∧ closed_set s' = closed_set revisit_state
        ∧ open_set s' ≡ₚ
            (child_node (2, 2) revisit_current <$>
               filter (.∉ closed_set revisit_state)
                      (get_neighbors (globals revisit_state) revisit_current))
            ++ revisit_rest.
Proof.
  apply astar_body_closed_node.
  - vm_compute. reflexivity.
  - by_evaluation.
  - by_evaluation.
Defined.

(** C3 as stated fails: in the search from [(0, 0)] to [(2, 2)] on the
    empty grid the ninth pass pops a node at [(1, 2)], which is closed, and
    pushes two nodes for it. *)
Lemma astar_body_closed_node_counterexample :
  astar_iter (2, 2) 8 (astar_init (python4_globals ∅) (0, 0) (2, 2))
    = Continue revisit_state
  ∧ heapq.heappop (open_set revisit_state)
      = Some (revisit_current, revisit_rest)
  ∧ Node.pos revisit_current = (1, 2)
  ∧ (1, 2) ∈ closed_set revisit_state
  ∧ (∃ s', astar_body (2, 2) revisit_state = Continue s'
           ∧ length (open_set s') = (length revisit_rest + 2)%nat)
  ∧ ¬ skips_closed_node (2, 2) revisit_state.
Proof.
  assert (Hiter : astar_iter (2, 2) 8
                    (astar_init (python4_globals ∅) (0, 0) (2, 2))
                  = Continue revisit_state)
    by (vm_compute; reflexivity).
  assert (Hpop : heapq.heappop (open_set revisit_state)
                 = Some (revisit_current, revisit_rest))
    by (vm_compute; reflexivity).
  assert (Hclosed : (1, 2) ∈ closed_set revisit_state)
    by by_evaluation.
  assert (Hpos : Node.pos revisit_current = (1, 2))
    by (vm_compute; reflexivity).
  assert (Hlen : match astar_body (2, 2) revisit_state with
                 | Continue s' => length (open_set s')
                 | Return _ _ => 0%nat
                 end = (length revisit_rest + 2)%nat)
    by (vm_compute; reflexivity).
  split; [exact Hiter|]. split; [exact Hpop|]. split; [exact Hpos|].
  split; [exact Hclosed|]. split.
  - destruct (astar_body (2, 2) revisit_state) as [|s'] eqn:Hbody.
    + vm_compute in Hlen. discriminate Hlen.
    + exists s'. split; [reflexivity|exact Hlen].
  - intros Hskip.
    destruct (Hskip _ _ Hpop) as (s' & Hbody & Hopen & _).
    { rewrite Hpos. exact Hclosed. }
    rewrite Hbody in Hlen. rewrite Hopen in Hlen. lia.
Qed.

(** ** The number of passes through the loop *)

Section passes.

Local Open Scope nat_scope.

(** As long as the loop has not returned, it has not made all its
    expansions. *)
Lemma astar_expansions_lower_bound gl start end_ n m :
  returned_within end_ n (astar_init gl start end_) = false →
  astar_expansions gl start end_ m → n ≤ m.
Proof.
  unfold returned_within. intros Hn (s & r & gl' & Hm & Hret).
  destruct (decide (n ≤ m)) as [|Hlt]; [done|]. exfalso.
  assert (Hfull : astar_iter end_ (m + 1) (astar_init gl start end_)
                  = Return r gl').
  { rewrite astar_iter_add, Hm. simpl. by rewrite Hret. }
  apply (astar_iter_Return_mono _ _ n) in Hfull; [|lia].
  by rewrite Hfull in Hn.
Qed.

End passes.

(** C4, as amended: on every grid, for every [start] and [end_], the
    search ends ([astar] is a total function and returns what the loop
    returns), after at most [1 + 4 * 5 ^ (GRID_SIZE * GRID_SIZE)] passes
    that expand a node. *)
Theorem astar_terminates gl start end_ :
  ∃ n s gl',
    astar_expansions gl start end_ n
    ∧ (n ≤ 1 + 4 * 5 ^ (Z.to_nat (GRID_SIZE gl) * Z.to_nat (GRID_SIZE gl)))%nat
    ∧ astar_iter end_ n (astar_init gl start end_) = Continue s
    ∧ astar_body end_ s = Return (find_path gl start end_) gl'.
Proof.
  destruct (astar_run gl start end_) as (n & s & Hn & Hiter & Hret).
  exists n, s, (astar gl start end_).2. split_and!; try done.
  by exists s, (astar gl start end_).1, (astar gl start end_).2.
Qed.

(** C4 as stated fails: with the wall at [x = 15] on the 30 x 30 grid, the
    search from [(0, 0)] to [(29, 0)] has not returned after 3601
    expansions, more than [4 * 30 * 30 = 3600]. *)
Lemma astar_expansions_counterexample :
  let gl := python4_globals wall_obstacles in
  in_bounds gl (0, 0) ∧ ((0, 0) ∉ obstacles gl)
  ∧ in_bounds gl (29, 0) ∧ ((29, 0) ∉ obstacles gl)
  ∧ returned_within (29, 0) (Z.to_nat 3601) (astar_init gl (0, 0) (29, 0))
      = false
  ∧ ¬ ∃ n, astar_expansions gl (0, 0) (29, 0) n
           ∧ Z.of_nat n <= GRID_SIZE gl * GRID_SIZE gl * 4.
Proof.
  assert (Hrun : returned_within (29, 0) (Z.to_nat 3601)
                   (astar_init (python4_globals wall_obstacles) (0, 0) (29, 0))
                 = false)
    by (vm_compute; reflexivity).
  intros gl. split_and!.
  - unfold in_bounds, gl. cbn [GRID_SIZE python4_globals fst snd]. lia.
  - by_evaluation.
  - unfold in_bounds, gl. cbn [GRID_SIZE python4_globals fst snd]. lia.
  - by_evaluation.
  - exact Hrun.
  - intros (n & Hn & Hle).
    pose proof (astar_expansions_lower_bound _ _ _ _ _ Hrun Hn).
    unfold gl in Hle. cbn [GRID_SIZE python4_globals] in Hle. lia.
Qed.

(** ** The search on a grid without obstacles *)

Lemma unit_step_cases (a b : Z * Z) :
  unit_step a b ↔
    b = (a.1 - 1, a.2) ∨ b = (a.1 + 1, a.2)
    ∨ b = (a.1, a.2 - 1) ∨ b = (a.1, a.2 + 1).
Proof.
  unfold unit_step, DIRECTIONS. split.
  - intros (d & Hd & ->).
    rewrite !elem_of_cons, elem_of_nil in Hd.
    destruct Hd as [->|[->|[->|[->|[]]]]]; simpl;
      rewrite ?Z.add_0_r; auto.
  - intros [->|[->|[->| ->]]];
      [exists (-1, 0)|exists (1, 0)|exists (0, -1)|exists (0, 1)];
      (split; [set_solver|simpl; f_equal; lia]).
Qed.

Section no_obstacles.

Variables (gl : Globals) (start end_ : Z * Z).
Hypothesis no_obstacles : obstacles gl = ∅.
Hypothesis start_in_bounds : in_bounds gl start.
Hypothesis end_in_bounds : in_bounds gl end_.

Lemma sound_node_f n : sound_node gl start end_ n → heuristic start end_ <= Node.f n.
Proof.
  intros (Hh & Hf & Hg & _). rewrite Hf, Hh.
  revert Hg. unfold heuristic. lia.
Qed.

Lemma sound_node_start :
  sound_node gl start end_
    (Node.init start.1 start.2 0 (heuristic start end_) None).
Proof.
  unfold sound_node, Node.init, Node.pos. simpl.
  destruct start as [sx sy]. simpl. split_and!; try done.
  unfold heuristic. simpl. lia.
Qed.

Lemma sound_node_child current c :
  sound_node gl start end_ current → c ∈ get_neighbors gl current →
  sound_node gl start end_ (child_node end_ current c).
Proof.
  intros (Hh & Hf & Hg & Hlen & Hb) (Hcb & _ & Hstep)%elem_of_get_neighbors.
  unfold sound_node. rewrite pos_child_node.
  destruct c as [cx cy]. cbn [child_node Node.init Node.h Node.f Node.g fst snd].
  split_and!; [done|done| | |done].
  - apply unit_step_cases in Hstep. revert Hg. unfold heuristic. simpl.
    destruct Hstep as [?|[?|[?|?]]]; simplify_eq; simpl; lia.
  - cbn [parent_chain length]. destruct current. simpl in *. lia.
Qed.

Lemma toward_exists c : c ≠ end_ → ∃ d, toward end_ c d.
Proof.
  intros Hne. destruct c as [cx cy]. unfold toward.
  setoid_rewrite unit_step_cases. unfold heuristic. simpl.
  destruct (decide (cx < end_.1));
    [exists (cx + 1, cy); simpl; split; [auto|lia]|].
  destruct (decide (end_.1 < cx));
    [exists (cx - 1, cy); simpl; split; [auto|lia]|].
  destruct (decide (cy < end_.2));
    [exists (cx, cy + 1); simpl; split; [auto|lia]|].
  destruct (decide (end_.2 < cy));
    [exists (cx, cy - 1); simpl; split; [auto|lia]|].
  exfalso. apply Hne. rewrite (surjective_pairing end_). f_equal; lia.
Qed.

Lemma toward_in_bounds c d : in_bounds gl c → toward end_ c d → in_bounds gl d.
Proof.
  unfold in_bounds, toward. rewrite unit_step_cases.
  destruct end_in_bounds as [? ?]. unfold heuristic.
  intros [? ?] [[->|[->|[->| ->]]] Hh]; simpl in *; lia.
Qed.

(** Some node on the heap has the least [f] that a sound node can have. *)
Lemma optimal_invariant_tight s :
  optimal_invariant gl start end_ s →
  ∃ n, n ∈ open_set s ∧ Node.f n = heuristic start end_.
Proof.
  intros (_ & _ & _ & Hend & Hstart & Hclosed).
  assert (Hgo : ∀ k c, Z.to_nat (heuristic c end_) = k →
                       reached s (heuristic start end_) c →
                       ∃ n, n ∈ open_set s ∧ Node.f n = heuristic start end_).
  { induction k as [k IH] using lt_wf_ind. intros c Hk [Hc|(n & Hn & _ & Hf)].
    - assert (c ≠ end_) as [d Hd]%toward_exists by (by intros ->).
      apply (IH (Z.to_nat (heuristic d end_))) with d; [|done|by eapply Hclosed].
      destruct Hd as [_ Hd]. revert Hd Hk. unfold heuristic. lia.
    - by exists n. }
  by eapply Hgo.
Qed.

Lemma optimal_invariant_init :
  optimal_invariant gl start end_ (astar_init gl start end_).
Proof.
  unfold optimal_invariant, astar_init. cbn [globals open_set closed_set].
  split_and!; try done.
  - apply heappush_ok. by intros [|i] a b.
  - intros n. rewrite heappush_perm. intros ->%list_elem_of_singleton.
    apply sound_node_start.
  - right. eexists. split_and!.
    + cbn [open_set]. rewrite heappush_perm. by left.
    + by destruct start.
    + simpl. lia.
Qed.

Lemma optimal_invariant_step s s' :
  optimal_invariant gl start end_ s → astar_body end_ s = Continue s' →
  optimal_invariant gl start end_ s'.
Proof.
  intros Hinv Hbody.
  destruct (optimal_invariant_tight s Hinv) as (t & Ht & Htf).
  destruct Hinv as (Hgl & Hok & Hnodes & Hend & Hstart & Hclosed).
  apply astar_body_Continue in Hbody
    as (current & rest & Hpop & Hperm & Hne & Hgl' & Hcl & Hopen & Hok').
  assert (Hcur : sound_node gl start end_ current).
  { apply Hnodes. rewrite Hperm. by left. }
  assert (Hcurf : Node.f current = heuristic start end_).
  { pose proof (heappop_least _ _ _ Hok Hpop t Ht).
    pose proof (sound_node_f _ Hcur). lia. }
  assert (Hkeep : ∀ c, reached s (heuristic start end_) c →
                       reached s' (heuristic start end_) c).
  { intros c [Hc|(n & Hn & Hpos & Hf)].
    - left. rewrite Hcl. set_solver.
    - rewrite Hperm in Hn. apply elem_of_cons in Hn as [->|Hn].
      + left. rewrite Hcl, Hpos. set_solver.
      + right. exists n. split_and!; [|done|done].
        rewrite Hopen. apply elem_of_app. by right. }
  unfold optimal_invariant. split_and!.
  - congruence.
  - by apply Hok'.
  - intros n. rewrite Hopen, elem_of_app.
    intros [(c & -> & [_ Hc]%list_elem_of_filter)%list_elem_of_fmap|Hn].
    + apply sound_node_child; [done|by rewrite <- Hgl].
    + apply Hnodes. rewrite Hperm. by right.
  - rewrite Hcl. set_solver.
  - by apply Hkeep.
  - intros c d Hc Hd. rewrite Hcl in Hc.
    apply elem_of_union in Hc as [Hc|Hc%elem_of_singleton];
      [by eapply Hkeep, Hclosed|subst c].
    destruct (decide (d ∈ closed_set s')) as [Hdc|Hdc]; [by left|].
    right. exists (child_node end_ current d). split_and!.
    + rewrite Hopen. apply elem_of_app. left.
      apply list_elem_of_fmap. exists d. split; [done|].
      apply list_elem_of_filter. split; [done|].
      apply elem_of_get_neighbors. rewrite Hgl, no_obstacles.
      destruct Hcur as (_ & _ & _ & _ & Hb), Hd as [Hstep Hh].
      split_and!; [|set_solver|done].
      by apply (toward_in_bounds (Node.pos current)).
    + apply pos_child_node.
    + destruct Hcur as (Hh & Hf & _), Hd as [_ Hd].
      destruct d as [dx dy].
      cbn [child_node Node.init Node.f fst snd]. lia.
Qed.

End no_obstacles.

(** A path that [find_path] returns from an unblocked [start] is a route
    from [start] to [end_] off the obstacles. *)
Lemma find_path_route gl start end_ path :
  start ∉ obstacles gl → find_path gl start end_ = Some path →
  route_from_to gl path start end_.
Proof.
  intros Hstart Hpath.
  destruct (astar_result_cases (node_ok gl start) gl start end_)
    as [Hnone|(current & Hok & Hpos & Hsome)].
  - simpl. by destruct start.
  - intros current c Hcur _ (_ & Hobs & Hstep)%elem_of_get_neighbors.
    destruct c as [cx cy]. simpl. done.
  - congruence.
  - rewrite Hsome in Hpath. injection Hpath as <-. rewrite <- Hpos.
    by apply node_ok_route.
Qed.

(** C2: on every grid with an empty obstacle set, for in-bounds [start]
    and [end_], [find_path] returns a path; the path is a route from
    [start] to [end_] by orthogonal unit steps, and it has exactly
    [heuristic start end_ + 1] coordinates: the Manhattan-optimal route. *)
Theorem find_path_no_obstacles gl start end_ :
  obstacles gl = ∅ → in_bounds gl start → in_bounds gl end_ →
  ∃ path, find_path gl start end_ = Some path
          ∧ route_from_to gl path start end_
          ∧ Z.of_nat (length path) = heuristic start end_ + 1.
Proof.
  intros Hobs Hstart Hend.
  destruct (astar_invariant (optimal_invariant gl start end_) gl start end_)
    as (s & Hinv & Hret).
  - by apply optimal_invariant_init.
  - intros s s'. by apply optimal_invariant_step.
  - destruct (optimal_invariant_tight _ _ _ s Hinv) as (t & Ht & Htf).
    destruct Hinv as (_ & Hok & Hnodes & _).
    assert (Hpath : ∃ path,
              find_path gl start end_ = Some path
              ∧ Z.of_nat (length path) = heuristic start end_ + 1).
    { unfold find_path.
      apply astar_body_Return in Hret
        as [_ [[_ Hnil]|(current & rest & Hpop & Hpos & ->)]].
      { rewrite Hnil in Ht. by apply elem_of_nil in Ht. }
      eexists. split; [done|]. rewrite length_reverse.
      assert (Hcur : sound_node gl start end_ current).
      { apply Hnodes. rewrite (heappop_perm _ _ _ Hpop). by left. }
      pose proof (heappop_least _ _ _ Hok Hpop t Ht).
      pose proof (sound_node_f _ _ _ _ Hcur).
      destruct Hcur as (Hh & Hf & _ & Hlen & _).
      rewrite Hpos in Hh. unfold heuristic in *. lia. }
    destruct Hpath as (path & Hsome & Hlen). exists path.
    split_and!; [done| |done].
    apply find_path_route; [|done]. rewrite Hobs. set_solver.
Qed.

Lemma find_path_no_obstacles_witness :
  ∃ path, find_path (python4_globals ∅) (0, 0) (4, 4) = Some path
          ∧ route_from_to (python4_globals ∅) path (0, 0) (4, 4)
          ∧ Z.of_nat (length path) = heuristic (0, 0) (4, 4) + 1.
Proof.
  apply find_path_no_obstacles.
  - reflexivity.
  - unfold in_bounds. cbn [GRID_SIZE python4_globals fst snd]. lia.
  - unfold in_bounds. cbn [GRID_SIZE python4_globals fst snd]. lia.
Defined.

(** * Further properties of the search *)

(** ** The returned path is a shortest route *)

Section shortest.

Variables (gl : Globals) (start end_ : Z * Z).

Lemma heuristic_along p a c :
  head p = Some a → last p = Some c → is_route p →
  heuristic a end_ <= Z.of_nat (length p) - 1 + heuristic c end_.
Proof.
  revert a. induction p as [|x [|y p] IH]; intros a Hhead Hlast Hp; [done| |].
  - simpl in *. simplify_eq. lia.
  - destruct Hp as [Hxy Hp]. simpl in Hhead. simplify_eq.
    rewrite last_cons_cons in Hlast.
    specialize (IH y eq_refl Hlast Hp).
    pose proof (heuristic_step _ _ end_ Hxy).
    cbn [length] in *. lia.
Qed.

Lemma walkable_snoc q a b :
  walkable gl q start a → unit_step a b → in_bounds gl b →
  b ∉ obstacles gl → walkable gl (q ++ [b]) start b.
Proof.
  intros (Hhead & Hlast & Hroute & Hvalid) Hstep Hb Ho.
  destruct q as [|x q]; [done|]. split_and!.
  - done.
  - apply last_snoc.
  - by eapply is_route_snoc.
  - simpl. intros c [Hc| ->%list_elem_of_singleton]%elem_of_app; [|done].
    by apply Hvalid.
Qed.

Lemma walkable_start : walkable gl [start] start start.
Proof. split_and!; try done. intros c Hc. by apply elem_of_nil in Hc. Qed.

(** Along a walkable route that leaves the closed set, some node on the
    heap is at least as good as the route. *)
Lemma frontier_covers_route s c suf a q :
  (∀ n, n ∈ open_set s → cost_ok end_ n) → frontier_covers gl start s →
  walkable gl q start a → a ∈ closed_set s →
  is_route (a :: suf) → last (a :: suf) = Some c →
  (∀ x, x ∈ suf → in_bounds gl x ∧ x ∉ obstacles gl) →
  c ∉ closed_set s →
  ∃ m, m ∈ open_set s
       ∧ Node.f m <= Z.of_nat (length q) - 1 + Z.of_nat (length suf)
                     + heuristic c end_.
Proof.
  intros Hcost Hcov. revert a q.
  induction suf as [|b suf IH]; intros a q Hq Ha Hroute Hlast Hvalid Hc.
  { simpl in Hlast. by simplify_eq. }
  destruct Hroute as [Hstep Hroute]. rewrite last_cons_cons in Hlast.
  destruct (Hvalid b) as [Hb Ho]; [by left|].
  destruct (decide (b ∈ closed_set s)) as [Hbc|Hbc].
  - destruct (IH b (q ++ [b])) as (m & Hm & Hf); try done.
    + by apply (walkable_snoc q a b).
    + intros x Hx. apply Hvalid. by right.
    + exists m. split; [done|]. rewrite length_app in Hf.
      cbn [length] in *. lia.
  - destruct (Hcov q a b) as (m & Hm & Hpos & Hg); try done.
    exists m. split; [done|].
    destruct (Hcost m Hm) as (Hh & Hf & _).
    pose proof (heuristic_along (b :: suf) b c eq_refl Hlast Hroute).
    rewrite Hpos in Hh. cbn [length] in *. lia.
Qed.

Lemma search_invariant_route s p c :
  search_invariant gl start end_ s → walkable gl p start c →
  c ∉ closed_set s →
  ∃ m, m ∈ open_set s
       ∧ Node.f m <= Z.of_nat (length p) - 1 + heuristic c end_.
Proof.
  intros (_ & _ & Hcost & _ & Hstart & Hcov) (Hhead & Hlast & Hroute & Hvalid) Hc.
  destruct p as [|x suf]; [done|]. simpl in Hhead. simplify_eq.
  destruct Hstart as [Hs|(m & Hm & Hpos & Hg)].
  - destruct (frontier_covers_route s c suf start [start])
      as (m & Hm & Hf); try done.
    + apply walkable_start.
    + exists m. split; [done|]. cbn [length] in *. lia.
  - exists m. split; [done|].
    destruct (Hcost m Hm) as (Hh & Hf & _).
    pose proof (heuristic_along (start :: suf) start c eq_refl Hlast Hroute).
    rewrite Hpos in Hh. lia.
Qed.

Lemma cost_ok_child current c :
  cost_ok end_ current → cost_ok end_ (child_node end_ current c).
Proof.
  intros (Hh & Hf & Hlen). unfold cost_ok. rewrite pos_child_node.
  destruct c as [cx cy]. cbn [child_node Node.init Node.h Node.f Node.g fst snd].
  split_and!; [done|done|].
  cbn [parent_chain length]. destruct current. simpl in *. lia.
Qed.

Lemma search_invariant_init :
  search_invariant gl start end_ (astar_init gl start end_).
Proof.
  unfold search_invariant, astar_init. cbn [globals open_set closed_set].
  split_and!; try done.
  - apply heappush_ok. by intros [|i] a b.
  - intros n. rewrite heappush_perm. intros ->%list_elem_of_singleton.
    unfold cost_ok, Node.init, Node.pos. simpl. by destruct start.
  - right. eexists. split_and!.
    + rewrite heappush_perm. by left.
    + by destruct start.
    + done.
Qed.

Lemma search_invariant_step s s' :
  search_invariant gl start end_ s → astar_body end_ s = Continue s' →
  search_invariant gl start end_ s'.
Proof.
  intros Hinv Hbody.
  pose proof Hinv as (Hgl & Hok & Hcost & Hend & Hstart & Hcov).
  apply astar_body_Continue in Hbody
    as (current & rest & Hpop & Hperm & Hne & Hgl' & Hcl & Hopen & Hok').
  assert (Hcur : cost_ok end_ current).
  { apply Hcost. rewrite Hperm. by left. }
  assert (Hkeep : ∀ m, m ∈ open_set s → Node.pos m ∉ closed_set s' →
                       m ∈ open_set s').
  { intros m Hm Hmc. rewrite Hperm in Hm.
    apply elem_of_cons in Hm as [->|Hm].
    - exfalso. apply Hmc. rewrite Hcl. set_solver.
    - rewrite Hopen. apply elem_of_app. by right. }
  unfold search_invariant. split_and!.
  - congruence.
  - by apply Hok'.
  - intros n. rewrite Hopen, elem_of_app.
    intros [(c & -> & _)%list_elem_of_fmap|Hn].
    + by apply cost_ok_child.
    + apply Hcost. rewrite Hperm. by right.
  - rewrite Hcl. set_solver.
  - destruct Hstart as [Hs|(m & Hm & Hpos & Hg)].
    + left. rewrite Hcl. set_solver.
    + destruct (decide (start ∈ closed_set s')) as [|Hsc]; [by left|].
      right. exists m. split_and!; [|done|done].
      apply Hkeep; [done|by rewrite Hpos].
  - intros q a b Hq Ha Hstep Hb Ho Hbc. rewrite Hcl in Ha.
    assert (Hbc' : b ∉ closed_set s) by (rewrite Hcl in Hbc; set_solver).
    destruct (decide (a ∈ closed_set s)) as [Hac|Hac].
    + destruct (Hcov q a b) as (m & Hm & Hpos & Hg); try done.
      exists m. split_and!; [|done|done].
      apply Hkeep; [done|by rewrite Hpos].
    + assert (a = Node.pos current) as -> by set_solver.
      exists (child_node end_ current b). split_and!.
      * rewrite Hopen. apply elem_of_app. left.
        apply list_elem_of_fmap. exists b. split; [done|].
        apply list_elem_of_filter. split; [done|].
        apply elem_of_get_neighbors. by rewrite Hgl.
      * apply pos_child_node.
      * destruct (search_invariant_route s q (Node.pos current) Hinv Hq Hac)
          as (m & Hm & Hf).
        pose proof (heappop_least _ _ _ Hok Hpop m Hm).
        destruct Hcur as (Hh & Hfc & _). destruct b as [bx by_].
        cbn [child_node Node.init Node.g]. lia.
Qed.

End shortest.

Lemma node_walkable_route gl start n :
  node_walkable gl start n →
  walkable gl (reverse (parent_chain n)) start (Node.pos n).
Proof.
  induction n as [nx ny g h f|nx ny g h f p IH] using Node_ind.
  - intros <-. apply walkable_start.
  - intros (Hb & Ho & Hstep & Hp). specialize (IH Hp).
    cbn [parent_chain]. rewrite reverse_cons.
    change (match p with Node.Build cx cy _ _ _ par =>
              (cx, cy) :: match par with Some p0 => parent_chain p0
                                       | None => [] end end)
      with (parent_chain p).
    by apply (walkable_snoc gl start _ (Node.pos p)).
Qed.

(** What [find_path] returns, in full: [None] when no walkable route
    exists; otherwise a walkable route that is no longer than any other. *)
Lemma find_path_outcome gl start end_ :
  (find_path gl start end_ = None ∧ ∀ p, ¬ walkable gl p start end_)
  ∨ ∃ path, find_path gl start end_ = Some path
            ∧ walkable gl path start end_
            ∧ ∀ p, walkable gl p start end_ → (length path ≤ length p)%nat.
Proof.
  assert (Hsome : ∀ path, find_path gl start end_ = Some path →
                          walkable gl path start end_).
  { intros path Hpath.
    destruct (astar_result_cases (node_walkable gl start) gl start end_)
      as [Hnone|(current & Hok & Hpos & Hsome)].
    - simpl. by destruct start.
    - intros current c Hcur _ (Hb & Hobs & Hstep)%elem_of_get_neighbors.
      destruct c as [cx cy]. simpl. done.
    - congruence.
    - rewrite Hsome in Hpath. injection Hpath as <-. rewrite <- Hpos.
      by apply node_walkable_route. }
  assert (Hshort : ∀ p, walkable gl p start end_ →
            ∃ path, find_path gl start end_ = Some path
                    ∧ (length path ≤ length p)%nat).
  { intros p Hp.
    destruct (astar_invariant (search_invariant gl start end_) gl start end_)
      as (s & Hinv & Hret).
    - apply search_invariant_init.
    - apply search_invariant_step.
    - pose proof Hinv as (_ & Hok & Hcost & Hend & _).
      destruct (search_invariant_route gl start end_ s p end_ Hinv Hp Hend)
        as (m & Hm & Hf).
      unfold find_path.
      apply astar_body_Return in Hret
        as [_ [[_ Hnil]|(current & rest & Hpop & Hpos & ->)]].
      { rewrite Hnil in Hm. by apply elem_of_nil in Hm. }
      eexists. split; [done|]. rewrite length_reverse.
      assert (Hcur : cost_ok end_ current).
      { apply Hcost. rewrite (heappop_perm _ _ _ Hpop). by left. }
      pose proof (heappop_least _ _ _ Hok Hpop m Hm).
      destruct Hcur as (Hh & Hfc & Hlen).
      rewrite Hpos in Hh. unfold heuristic in *. lia. }
  destruct (find_path gl start end_) as [path|] eqn:Hpath.
  - right. exists path. split_and!; [done|by apply Hsome|].
    intros p Hp. destruct (Hshort p Hp) as (path' & [= <-] & Hle). done.
  - left. split; [done|]. intros p Hp.
    by destruct (Hshort p Hp) as (path' & ? & _).
Qed.

(** X1: for whatever [start] and [end_], a path that [find_path] returns
    begins at [start], ends at [end_], moves by orthogonal unit steps, and
    after [start] visits only coordinates that are on the grid and no
    obstacle. *)
Theorem find_path_walkable gl start end_ path :
  find_path gl start end_ = Some path → walkable gl path start end_.
Proof.
  intros Hpath.
  destruct (find_path_outcome gl start end_)
    as [[Hnone _]|(path' & Hsome & Hwalk & _)]; [congruence|].
  rewrite Hsome in Hpath. by injection Hpath as <-.
Qed.

Lemma find_path_walkable_witness :
  walkable (python4_globals {[(1, 0)]})
    [(0, 0); (0, 1); (1, 1); (2, 1); (2, 0)] (0, 0) (2, 0).
Proof.
  apply find_path_walkable. vm_compute. reflexivity.
Defined.

(** X2: whenever some walkable route from [start] to [end_] exists,
    [find_path] returns a path; the path is itself a walkable route from
    [start] to [end_], and it has no more coordinates than that route: the
    search is complete and its path is a shortest one. *)
Theorem find_path_shortest gl start end_ p :
  walkable gl p start end_ →
  ∃ path, find_path gl start end_ = Some path
          ∧ walkable gl path start end_
          ∧ (length path ≤ length p)%nat.
Proof.
  intros Hp.
  destruct (find_path_outcome gl start end_)
    as [[_ Hnone]|(path & Hsome & Hwalk & Hle)].
  - by destruct (Hnone p).
  - exists path. split_and!; [done|done|]. by apply Hle.
Qed.

Lemma find_path_shortest_witness :
  ∃ path, find_path (python4_globals {[(1, 0)]}) (0, 0) (2, 0) = Some path
          ∧ walkable (python4_globals {[(1, 0)]}) path (0, 0) (2, 0)
          ∧ (length path ≤ 7)%nat.
Proof.
  apply (find_path_shortest _ _ _
           [(0, 0); (0, 1); (0, 2); (1, 2); (2, 2); (2, 1); (2, 0)]).
  split_and!; [done|done| |].
  - simpl. split_and!; try done;
      [exists (0, 1)|exists (0, 1)|exists (1, 0)|exists (1, 0)
      |exists (0, -1)|exists (0, -1)]; (split; [set_solver|done]).
  - intros c Hc. simpl in Hc. unfold in_bounds.
    cbn [GRID_SIZE python4_globals obstacles].
    rewrite !elem_of_cons, elem_of_nil in Hc.
    destruct Hc as [->|[->|[->|[->|[->|[->|[]]]]]]]; simpl;
      (split; [lia|set_solver]).
Defined.

(** X3: [find_path] returns [None] exactly when there is no walkable
    route from [start] to [end_]. *)
Theorem find_path_None_iff gl start end_ :
  find_path gl start end_ = None ↔ ¬ ∃ p, walkable gl p start end_.
Proof.
  destruct (find_path_outcome gl start end_)
    as [[Hnone Hno]|(path & Hsome & Hwalk & _)].
  - split; [|done]. intros _ [p Hp]. by apply (Hno p).
  - split; [congruence|]. intros Hno. exfalso. apply Hno. by exists path.
Qed.

(** ** The returned path visits no coordinate twice *)

Section no_repeat.

Implicit Types (l r p : list (Z * Z)) (c : Z * Z).

Lemma is_route_app l c r :
  is_route (l ++ c :: r) ↔ is_route (l ++ [c]) ∧ is_route (c :: r).
Proof.
  induction l as [|x [|y l] IH].
  - simpl. destruct r; tauto.
  - simpl. destruct r; tauto.
  - change (is_route ((x :: y :: l) ++ c :: r))
      with (unit_step x y ∧ is_route ((y :: l) ++ c :: r)).
    change (is_route ((x :: y :: l) ++ [c]))
      with (unit_step x y ∧ is_route ((y :: l) ++ [c])).
    rewrite IH. tauto.
Qed.

Lemma repeat_or_NoDup p :
  NoDup p ∨ ∃ l c m r, p = l ++ c :: m ++ c :: r.
Proof.
  induction p as [|x p [IH|(l & c & m & r & ->)]].
  - left. constructor.
  - destruct (decide (x ∈ p)) as [(m & r & ->)%list_elem_of_split|Hx].
    + right. by exists [], x, m, r.
    + left. by constructor.
  - right. by exists (x :: l), c, m, r.
Qed.

(** Cutting a loop out of a walkable route leaves a walkable route. *)
Lemma walkable_cut gl a b l c m r :
  walkable gl (l ++ c :: m ++ c :: r) a b → walkable gl (l ++ c :: r) a b.
Proof.
  intros (Hhead & Hlast & Hroute & Hvalid). split_and!.
  - by destruct l.
  - rewrite last_app_cons in Hlast |- *.
    change (c :: m ++ c :: r) with ((c :: m) ++ c :: r) in Hlast.
    by rewrite last_app_cons in Hlast.
  - apply is_route_app in Hroute as [Hl Hr].
    change (c :: m ++ c :: r) with ((c :: m) ++ c :: r) in Hr.
    apply is_route_app in Hr as [_ Hr]. by apply is_route_app.
  - intros x Hx. apply Hvalid. destruct l as [|y l]; simpl in *.
    + apply elem_of_app. right. by right.
    + apply elem_of_app in Hx as [Hx|Hx]; apply elem_of_app; [by left|].
      right. apply elem_of_cons in Hx as [->|Hx]; [by left|].
      right. apply elem_of_app. right. by right.
Qed.

End no_repeat.

(** A shortest walkable route has no loop. *)
Lemma shortest_NoDup gl a b path :
  walkable gl path a b →
  (∀ p, walkable gl p a b → (length path ≤ length p)%nat) →
  NoDup path.
Proof.
  intros Hwalk Hle.
  destruct (repeat_or_NoDup path) as [|(l & c & m & r & ->)]; [done|].
  apply walkable_cut in Hwalk. apply Hle in Hwalk.
  rewrite !length_app in Hwalk. cbn [length] in Hwalk.
  rewrite length_app in Hwalk. cbn [length] in Hwalk. lia.
Qed.

(** X4: a path that [find_path] returns visits no coordinate twice. *)
Theorem find_path_NoDup gl start end_ path :
  find_path gl start end_ = Some path → NoDup path.
Proof.
  intros Hpath.
  destruct (find_path_outcome gl start end_)
    as [[Hnone _]|(path' & Hsome & Hwalk & Hle)]; [congruence|].
  rewrite Hsome in Hpath. injection Hpath as <-.
  by eapply shortest_NoDup.
Qed.

Lemma find_path_NoDup_witness :
  NoDup [(0, 0); (0, 1); (1, 1); (2, 1); (2, 0)].
Proof.
  apply (find_path_NoDup (python4_globals {[(1, 0)]}) (0, 0) (2, 0)).
  vm_compute. reflexivity.
Defined.

(** ** The order in which nodes are expanded *)

Section best_first.

Variables (gl : Globals) (start end_ : Z * Z).
Implicit Types (s : state) (n k : nat).

Lemma search_invariant_reached n s :
  astar_iter end_ n (astar_init gl start end_) = Continue s →
  search_invariant gl start end_ s.
Proof.
  apply (astar_iter_invariant end_ (search_invariant gl start end_)).
  - apply search_invariant_step.
  - apply search_invariant_init.
Qed.

(** A child's priority is not below its parent's: the heuristic drops by
    at most one per move. *)
Lemma child_node_f current c :
  cost_ok end_ current → unit_step (Node.pos current) c →
  Node.f current <= Node.f (child_node end_ current c).
Proof.
  intros (Hh & Hf & _) Hstep.
  pose proof (heuristic_step _ _ end_ Hstep).
  destruct c as [cx cy]. cbn [child_node Node.init Node.f fst snd]. lia.
Qed.

Lemma f_bound_step b s s' :
  search_invariant gl start end_ s →
  (∀ m, m ∈ open_set s → b <= Node.f m) →
  astar_body end_ s = Continue s' →
  ∀ m, m ∈ open_set s' → b <= Node.f m.
Proof.
  intros (Hgl & _ & Hcost & _) Hb Hbody.
  apply astar_body_Continue in Hbody
    as (current & rest & _ & Hperm & _ & _ & _ & Hopen & _).
  assert (Hcur : current ∈ open_set s) by (rewrite Hperm; by left).
  intros m. rewrite Hopen, elem_of_app.
  intros [(c & -> & Hc)%list_elem_of_fmap|Hm].
  - apply list_elem_of_filter in Hc as [_ Hc].
    apply elem_of_get_neighbors in Hc as (_ & _ & Hstep).
    pose proof (child_node_f current c (Hcost _ Hcur) Hstep).
    pose proof (Hb _ Hcur). lia.
  - apply Hb. rewrite Hperm. by right.
Qed.

Lemma f_bound_iter b k s s' :
  search_invariant gl start end_ s →
  (∀ m, m ∈ open_set s → b <= Node.f m) →
  astar_iter end_ k s = Continue s' →
  ∀ m, m ∈ open_set s' → b <= Node.f m.
Proof.
  intros Hinv Hb Hiter.
  apply (astar_iter_invariant end_
           (fun s => search_invariant gl start end_ s
                     ∧ ∀ m, m ∈ open_set s → b <= Node.f m))
    with (s' := s') in Hiter; [by destruct Hiter| |done].
  intros s1 s2 [Hinv1 Hb1] Hbody. split.
  - by eapply search_invariant_step.
  - by eapply f_bound_step.
Qed.

End best_first.

(** X5: at every pass of the search the node that [heappop] takes off the
    frontier has the least [f] of all frontier nodes, its [f] is its [g]
    plus the Manhattan distance from its coordinate to [end_], and its [g]
    is the number of moves along its own parent chain. *)
Theorem astar_pops_least gl start end_ n s current rest :
  astar_iter end_ n (astar_init gl start end_) = Continue s →
  heapq.heappop (open_set s) = Some (current, rest) →
  (∀ m, m ∈ rest → Node.f current <= Node.f m)
  ∧ Node.f current = Node.g current + heuristic (Node.pos current) end_
  ∧ Z.of_nat (length (parent_chain current)) = Node.g current + 1.
Proof.
  intros Hiter Hpop.
  apply search_invariant_reached in Hiter as (_ & Hok & Hcost & _).
  pose proof (heappop_perm _ _ _ Hpop) as Hperm.
  destruct (Hcost current) as (Hh & Hf & Hlen); [rewrite Hperm; by left|].
  split_and!; [|lia|done].
  intros m Hm. apply (heappop_least _ _ _ Hok Hpop).
  rewrite Hperm. by right.
Qed.

Lemma astar_pops_least_witness :
  ∃ (current : Node.t) (rest : list Node.t),
    (∀ m, m ∈ rest → Node.f current <= Node.f m)
    ∧ Node.f current = Node.g current + heuristic (Node.pos current) (2, 2)
    ∧ Z.of_nat (length (parent_chain current)) = Node.g current + 1.
Proof.
  eexists _, _.
  eapply (astar_pops_least (python4_globals ∅) (0, 0) (2, 2) 1).
  - vm_compute. reflexivity.
  - vm_compute. reflexivity.
Defined.

(** X6: the [f] of the expanded nodes never decreases in the course of a
    search: a node popped at a later pass has an [f] at least that of any
    node popped before. *)
Theorem astar_pops_nondecreasing gl start end_ n k s s' current rest
    current' rest' :
  astar_iter end_ n (astar_init gl start end_) = Continue s →
  astar_iter end_ k s = Continue s' →
  heapq.heappop (open_set s) = Some (current, rest) →
  heapq.heappop (open_set s') = Some (current', rest') →
  Node.f current <= Node.f current'.
Proof.
  intros Hs Hs' Hpop Hpop'.
  pose proof (search_invariant_reached _ _ _ _ _ Hs) as Hinv.
  apply (f_bound_iter gl start end_ (Node.f current) k s s'); try done.
  - destruct Hinv as (_ & Hok & _). by apply (heappop_least _ _ _ Hok Hpop).
  - rewrite (heappop_perm _ _ _ Hpop'). by left.
Qed.

Lemma astar_pops_nondecreasing_witness :
  ∃ current current' : Node.t,
    Node.pos current = (0, 0) ∧ Node.pos current' = (0, 1)
    ∧ Node.f current <= Node.f current'.
Proof.
  eexists _, _. split_and!; cycle 2.
  - eapply (astar_pops_nondecreasing (python4_globals ∅) (0, 0) (2, 2) 0 2).
    + reflexivity.
    + vm_compute. reflexivity.
    + vm_compute. reflexivity.
    + vm_compute. reflexivity.
  - reflexivity.
  - reflexivity.
Defined.

(** X7: [get_neighbors] returns exactly the cells one orthogonal step from
    the node that lie inside the grid and are not obstacles, each of them
    once, so at most four. *)
Theorem get_neighbors_exact gl node :
  NoDup (get_neighbors gl node)
  ∧ (length (get_neighbors gl node) ≤ 4)%nat
  ∧ ∀ c, c ∈ get_neighbors gl node ↔
           (0 <= c.1 < GRID_SIZE gl ∧ 0 <= c.2 < GRID_SIZE gl)
           ∧ c ∉ obstacles gl
           ∧ (Z.abs (c.1 - Node.x node) + Z.abs (c.2 - Node.y node) = 1).
Proof.
  split_and!.
  - rewrite get_neighbors_unfold. unfold DIRECTIONS. simpl.
    repeat case_bool_decide; simpl;
      repeat (apply NoDup_cons; split;
              [rewrite ?elem_of_cons, elem_of_nil; intros H';
               repeat (destruct H' as [H'|H']; [injection H'; lia|]); done|]);
      apply NoDup_nil_2.
  - apply length_get_neighbors.
  - intros c. rewrite elem_of_get_neighbors. unfold in_bounds.
    split; intros (Hb & Hobs & Hstep); (split; [done|split; [done|]]).
    + apply unit_step_cases in Hstep. destruct node, c; simpl in *.
      destruct Hstep as [H'|[H'|[H'|H']]]; injection H'; lia.
    + apply unit_step_cases. destruct node, c; simpl in *.
      rewrite !pair_equal_spec. lia.
Qed.

(** * Properties of the main loop *)

Section main_loop.

Implicit Types (w : Main.world) (event : Main.Event) (c : Z * Z).

(** [astar] hands the globals back as it found them. *)
Lemma astar_globals gl start end_ : (astar gl start end_).2 = gl.
Proof.
  destruct (astar_invariant (fun s => globals s = gl) gl start end_)
    as (s & Hs & Hret).
  - done.
  - intros s s' Hs (current & rest & _ & _ & _ & Hgl & _)%astar_body_Continue.
    by rewrite Hgl.
  - by apply astar_body_Return in Hret as [-> _].
Qed.

(** What drawing and every handler keep holds after the loop. *)
Lemma main_loop_invariant (I : Main.world → Prop) (E : Main.Event → Prop) :
  (∀ w, I w → I (Main.draw (Main.draw_elements w (Main.path w)) w)) →
  (∀ w event, E event → I w → I (Main.handle_event w event)) →
  ∀ events w, Forall (Forall E) events → I w → I (Main.main_loop events w).
Proof.
  intros Hdraw Hevent events.
  induction events as [|batch events IH]; intros w Hall Hw; simpl; [done|].
  destruct (Main.running w); [|done].
  apply Forall_cons in Hall as [Hbatch Hall]. apply IH; [done|].
  specialize (Hdraw w Hw). revert Hdraw.
  generalize (Main.draw (Main.draw_elements w (Main.path w)) w).
  induction batch as [|event batch IHb]; intros w' Hw'; simpl; [done|].
  apply Forall_cons in Hbatch as [He Hbatch]. apply IHb; [done|].
  by apply Hevent.
Qed.

Lemma handle_event_marks_free w event :
  marks_free w → marks_free (Main.handle_event w event).
Proof.
  intros (Hs & He & Hse). destruct event as [|pos button|key|]; simpl.
  - done.
  - repeat case_bool_decide; try done; unfold marks_free; simpl.
    + split_and!; [|done|]; intros c [= <-]; naive_solver.
    + split_and!; [done| |]; intros c; [intros [= <-]|]; naive_solver.
    + split_and!; [intros c Hc|intros c Hc|done];
        rewrite elem_of_union, elem_of_singleton; naive_solver.
  - repeat case_bool_decide; try done.
    destruct (Main.start w) as [s|] eqn:Hstart; [|by rewrite <- Hstart in *].
      destruct (Main.end_ w) as [e|] eqn:Hend;
        [|by rewrite <- Hstart, <- Hend in *].
      rewrite astar_globals.
      destruct (astar (Main.grid w) s e).1; unfold marks_free; simpl.
      * rewrite Hstart, Hend. by destruct (Main.grid w).
      * done.
  - done.
Qed.

End main_loop.

(** X8: whatever events arrive, the main loop keeps [start] and [end] off
    the obstacles and apart from each other: when it calls [astar], neither
    end of the search is blocked. *)
Theorem main_loop_marks_free events :
  marks_free (Main.main_loop events Main.initial).
Proof.
  apply (main_loop_invariant marks_free (fun _ => True)).
  - done.
  - intros w event _. apply handle_event_marks_free.
  - apply Forall_forall. intros batch _. by apply Forall_forall.
  - done.
Qed.

Section window.

Implicit Types (w : Main.world) (event : Main.Event) (c : Z * Z).

Lemma elem_of_range x a b s : 0 < s → x ∈ Main.range a b s → a <= x < b.
Proof.
  intros Hs (i & -> & Hi)%list_elem_of_fmap. apply elem_of_seqZ in Hi.
  pose proof (Z.mul_div_le (b - a + s - 1) s Hs). nia.
Qed.

Lemma cell_rect_in_window gl c :
  GRID_SIZE gl = 30 → in_bounds gl c → rect_in_window (Main.cell_rect c).
Proof.
  unfold in_bounds, rect_in_window, Main.cell_rect, Main.SCREEN_SIZE,
    Main.CELL_SIZE.
  simpl. intros ->. lia.
Qed.

Lemma clicked_cell_in_bounds gl (pos : Z * Z) :
  GRID_SIZE gl = 30 →
  0 <= pos.1 < Main.SCREEN_SIZE → 0 <= pos.2 < Main.SCREEN_SIZE →
  in_bounds gl (pos.1 `div` Main.CELL_SIZE, pos.2 `div` Main.CELL_SIZE).
Proof.
  unfold in_bounds, Main.SCREEN_SIZE, Main.CELL_SIZE. simpl. intros -> H1 H2.
  split; (split; [apply Z.div_pos|apply Z.div_lt_upper_bound]; lia).
Qed.

Lemma draw_grid_in_window : Forall call_in_window Main.draw_grid.
Proof.
  unfold Main.draw_grid. apply Forall_app. split.
  - apply Forall_fmap, Forall_forall. intros x Hx%elem_of_range; [|done].
    simpl. unfold Main.SCREEN_SIZE, Main.CELL_SIZE in *. simpl in *. lia.
  - apply Forall_fmap, Forall_forall. intros x Hx%elem_of_range; [|done].
    simpl. unfold Main.SCREEN_SIZE, Main.CELL_SIZE in *. simpl in *. lia.
Qed.

Lemma draw_elements_in_window w :
  GRID_SIZE (Main.grid w) = 30 → on_grid w →
  Forall call_in_window (Main.draw_elements w (Main.path w)).
Proof.
  intros Hsize (Hs & He & Ho & Hp). unfold Main.draw_elements.
  rewrite !Forall_app. split_and!.
  - by repeat constructor.
  - apply Forall_fmap, Forall_forall. intros c Hc%elem_of_elements.
    by eapply cell_rect_in_window, Ho.
  - destruct (Main.path w) as [[|c0 p]|]; [done| |done].
    apply Forall_fmap, Forall_forall. intros c Hc.
    by eapply cell_rect_in_window, Hp.
  - destruct (Main.start w) as [c|]; [|done].
    apply Forall_singleton. by eapply cell_rect_in_window, Hs.
  - destruct (Main.end_ w) as [c|]; [|done].
    apply Forall_singleton. by eapply cell_rect_in_window, He.
  - apply draw_grid_in_window.
  - by repeat constructor.
Qed.

Lemma walkable_in_bounds gl p a b c :
  walkable gl p a b → in_bounds gl a → c ∈ p → in_bounds gl c.
Proof.
  intros (Hhead & _ & _ & Htail) Ha Hc. destruct p as [|a' p]; [done|].
  injection Hhead as ->. apply elem_of_cons in Hc as [->|Hc]; [done|].
  by apply Htail.
Qed.

Lemma handle_event_window w event :
  in_window event → window_invariant w →
  window_invariant (Main.handle_event w event).
Proof.
  intros Hev (Hsize & (Hs & He & Ho & Hp) & Hscreen).
  destruct event as [|pos button|key|]; simpl.
  - done.
  - destruct Hev as [H1 H2].
    pose proof (clicked_cell_in_bounds _ pos Hsize H1 H2) as Hcell.
    repeat case_bool_decide; try done;
      (split; [done|split; [|done]]); unfold on_grid; simpl.
    + split_and!; [|done..]. by intros c [= <-].
    + split_and!; [done| |done..]. by intros c [= <-].
    + split_and!; [done|done| |done].
      intros c [->%elem_of_singleton|Hc]%elem_of_union; [done|by apply Ho].
  - repeat case_bool_decide; try done.
    destruct (Main.start w) as [s|] eqn:Hstart;
      [|by rewrite <- Hstart in *].
    destruct (Main.end_ w) as [e|] eqn:Hend;
      [|by rewrite <- Hstart, <- Hend in *].
    rewrite astar_globals.
    destruct (find_path_outcome (Main.grid w) s e)
      as [[Hnone _]|(p & Hsome & Hwalk & _)];
      unfold find_path in *.
    + rewrite Hnone. split; [done|]. split; [|done].
      unfold on_grid. simpl. split_and!; try done; set_solver.
    + rewrite Hsome. split; [by destruct (Main.grid w)|].
      split; [|done]. unfold on_grid. simpl.
      rewrite Hstart, Hend. destruct (Main.grid w) eqn:Hgrid.
      split_and!; try done.
      intros p' c [= <-] Hc. eapply walkable_in_bounds; [done| |done].
      by apply Hs.
  - done.
Qed.

Lemma main_loop_window events :
  Forall (Forall in_window) events →
  window_invariant (Main.main_loop events Main.initial).
Proof.
  intros Hall. apply (main_loop_invariant window_invariant in_window).
  - intros w (Hsize & Hgrid & Hscreen). split_and!; [done|done|].
    simpl. apply Forall_app. split; [done|].
    by apply draw_elements_in_window.
  - apply handle_event_window.
  - done.
  - split_and!; [done| |by constructor].
    unfold on_grid. simpl. split_and!; try done; set_solver.
Qed.

End window.

(** X9: as long as no click falls outside the window, [start], [end], every
    obstacle and every coordinate of the path on display are cells of the
    30 by 30 grid. *)
Theorem main_loop_on_grid events :
  Forall (Forall in_window) events →
  on_grid (Main.main_loop events Main.initial).
Proof. intros Hall. by apply main_loop_window. Qed.

Lemma main_loop_on_grid_witness :
  on_grid (Main.main_loop
             [[Main.MOUSEBUTTONDOWN (45, 130) 1; Main.KEYDOWN 32];
              [Main.MOUSEBUTTONDOWN (599, 0) 2; Main.QUIT]]
             Main.initial).
Proof.
  apply main_loop_on_grid.
  repeat (apply Forall_cons; split); try apply Forall_nil; try exact I;
    vm_compute; by repeat split.
Defined.

(** X10: as long as no click falls outside the window, every rectangle the
    program draws lies inside the window, and every line it draws ends on
    the window or its border. *)
Theorem main_loop_draws_in_window events :
  Forall (Forall in_window) events →
  Forall call_in_window (Main.screen (Main.main_loop events Main.initial)).
Proof. intros Hall. by apply main_loop_window. Qed.

Lemma main_loop_draws_in_window_witness :
  Forall call_in_window
    (Main.screen
       (Main.main_loop
          [[Main.MOUSEBUTTONDOWN (45, 130) 1;
            Main.MOUSEBUTTONDOWN (599, 0) 2]; []]
          Main.initial)).
Proof.
  apply main_loop_draws_in_window.
  repeat (apply Forall_cons; split); try apply Forall_nil; try exact I;
    vm_compute; by repeat split.
Defined.

(** X11: pressing space with both marks set either stores a shortest
    walkable route from [start] to [end] in [path] and changes nothing
    else, or, when no walkable route exists, prints the two messages and
    wipes the grid: [start], [end] and [path] become [None] and the
    obstacle set becomes empty. *)
Theorem space_key_outcome w s e :
  Main.start w = Some s → Main.end_ w = Some e →
  (∃ p, walkable (Main.grid w) p s e
        ∧ (∀ q, walkable (Main.grid w) q s e → (length p ≤ length q)%nat)
        ∧ Main.handle_event w (Main.KEYDOWN Main.K_SPACE)
          = Main.set_path (Some p) w)
  ∨ ((∀ q, ¬ walkable (Main.grid w) q s e)
     ∧ Main.handle_event w (Main.KEYDOWN Main.K_SPACE)
       = Main.mkWorld (mkGlobals (GRID_SIZE (Main.grid w)) ∅) None None None
           (Main.running w) (Main.screen w)
           (Main.stdout w
              ++ ["No path found!"; "No valid path! Resetting..."])).
Proof.
  intros Hstart Hend. cbn [Main.handle_event].
  rewrite bool_decide_eq_true_2 by done. rewrite Hstart, Hend.
  cbv zeta. rewrite astar_globals.
  destruct (find_path_outcome (Main.grid w) s e)
    as [[Hnone Hno]|(p & Hsome & Hwalk & Hle)]; unfold find_path in *.
  - right. split; [done|]. rewrite Hnone.
    unfold Main.reset_game, Main.set_obstacles, Main.set_end, Main.set_start,
      Main.print, Main.set_path, Main.set_grid.
    cbn [Main.grid Main.start Main.end_ Main.path Main.running Main.screen
         Main.stdout].
    by rewrite <- app_assoc.
  - left. exists p. split_and!; [done|done|]. by rewrite Hsome.
Qed.

Lemma space_key_outcome_witness :
  let w := Main.set_end (Some (2, 0))
             (Main.set_start (Some (0, 0)) Main.initial) in
  (∃ p, walkable (Main.grid w) p (0, 0) (2, 0)
        ∧ (∀ q, walkable (Main.grid w) q (0, 0) (2, 0)
                → (length p ≤ length q)%nat)
        ∧ Main.handle_event w (Main.KEYDOWN Main.K_SPACE)
          = Main.set_path (Some p) w)
  ∨ ((∀ q, ¬ walkable (Main.grid w) q (0, 0) (2, 0))
     ∧ Main.handle_event w (Main.KEYDOWN Main.K_SPACE)
       = Main.mkWorld (mkGlobals (GRID_SIZE (Main.grid w)) ∅) None None None
           (Main.running w) (Main.screen w)
           (Main.stdout w
              ++ ["No path found!"; "No valid path! Resetting..."])).
Proof.
  intros w. apply (space_key_outcome w (0, 0) (2, 0)); reflexivity.
Defined.

Section display.

Implicit Types (w : Main.world) (event : Main.Event).

Lemma handle_event_path_shape w event :
  path_shape w → path_shape (Main.handle_event w event).
Proof.
  intros Hw. destruct event as [|pos button|key|]; simpl; try done.
  - by repeat case_bool_decide.
  - repeat case_bool_decide; try done.
    destruct (Main.start w) as [s|]; [|done].
    destruct (Main.end_ w) as [e|]; [|done].
    destruct (find_path_outcome (Main.grid w) s e)
      as [[Hnone _]|(p & Hsome & Hwalk & Hle)]; unfold find_path in *.
    + by rewrite Hnone.
    + rewrite Hsome. intros p' [= <-]. split_and!.
      * destruct Hwalk as [Hhead _]. by destruct p.
      * by destruct Hwalk as (_ & _ & Hroute & _).
      * by eapply shortest_NoDup.
Qed.

Lemma handle_event_stopped w event :
  Main.running w = false → Main.running (Main.handle_event w event) = false.
Proof.
  intros Hw. destruct event as [|pos button|key|]; simpl; try done.
  - by repeat case_bool_decide.
  - repeat case_bool_decide; try done.
    destruct (Main.start w) as [s|]; [|done].
    destruct (Main.end_ w) as [e|]; [|done].
    by destruct (astar (Main.grid w) s e).1.
Qed.

Lemma handle_events_stopped w batch :
  Main.running w = false →
  Main.running (foldl Main.handle_event w batch) = false.
Proof.
  revert w. induction batch as [|event batch IH]; intros w Hw; simpl; [done|].
  by apply IH, handle_event_stopped.
Qed.

Lemma handle_events_quit w batch :
  Main.QUIT ∈ batch → Main.running (foldl Main.handle_event w batch) = false.
Proof.
  revert w. induction batch as [|event batch IH]; intros w Hq; simpl.
  - by apply elem_of_nil in Hq.
  - apply elem_of_cons in Hq as [<-|Hq]; [|by apply IH].
    by apply handle_events_stopped.
Qed.

End display.

(** X12: whatever events arrive, a path on display is not empty, moves by
    orthogonal unit steps and visits no coordinate twice. *)
Theorem main_loop_path_shape events p :
  Main.path (Main.main_loop events Main.initial) = Some p →
  p ≠ [] ∧ is_route p ∧ NoDup p.
Proof.
  revert p. change (path_shape (Main.main_loop events Main.initial)).
  apply (main_loop_invariant path_shape (fun _ => True)).
  - done.
  - intros w event _. apply handle_event_path_shape.
  - apply Forall_forall. intros batch _. by apply Forall_forall.
  - done.
Qed.

Lemma main_loop_path_shape_witness :
  [(0, 0); (1, 0)] ≠ [] ∧ is_route [(0, 0); (1, 0)]
  ∧ NoDup [(0, 0); (1, 0)].
Proof.
  apply (main_loop_path_shape
           [[Main.MOUSEBUTTONDOWN (5, 5) 1; Main.MOUSEBUTTONDOWN (25, 5) 3;
             Main.KEYDOWN 32]]).
  vm_compute. reflexivity.
Defined.

(** X13: a QUIT event does not cut the batch short: the events that
    [pygame.event.get()] returned with it are all handled, and then the
    loop stops; batches that would follow are never read. *)
Theorem main_loop_quit batch events w :
  Main.running w = true → Main.QUIT ∈ batch →
  Main.main_loop (batch :: events) w
    = foldl Main.handle_event
        (Main.draw (Main.draw_elements w (Main.path w)) w) batch
  ∧ Main.running (Main.main_loop (batch :: events) w) = false.
Proof.
  intros Hrun Hquit. cbn [Main.main_loop]. rewrite Hrun.
  pose proof (handle_events_quit
                (Main.draw (Main.draw_elements w (Main.path w)) w) batch Hquit)
    as Hstop.
  destruct events as [|batch' events]; cbn [Main.main_loop];
    by rewrite ?Hstop.
Qed.

Lemma main_loop_quit_witness :
  let batch := [Main.QUIT; Main.MOUSEBUTTONDOWN (5, 5) 1] in
  let events := [[Main.MOUSEBUTTONDOWN (25, 5) 3]] in
  Main.main_loop (batch :: events) Main.initial
    = foldl Main.handle_event
        (Main.draw (Main.draw_elements Main.initial
                      (Main.path Main.initial)) Main.initial) batch
  ∧ Main.running (Main.main_loop (batch :: events) Main.initial) = false.
Proof.
  intros batch events. apply main_loop_quit.
  - reflexivity.
  - by left.
Defined.

(** X14: a click on any pixel of the rectangle that [draw_elements] draws
    for a cell acts on that cell: the left button makes it [start] and the
    right button makes it [end] when it is no obstacle and not the other
    mark; the middle button makes it an obstacle when it is neither mark. *)
Theorem click_selects_cell w c pos :
  point_in_rect pos (Main.cell_rect c) →
  (c ∉ obstacles (Main.grid w) → Main.end_ w ≠ Some c →
   Main.start (Main.handle_event w (Main.MOUSEBUTTONDOWN pos 1)) = Some c)
  ∧ (c ∉ obstacles (Main.grid w) → Main.start w ≠ Some c →
     Main.end_ (Main.handle_event w (Main.MOUSEBUTTONDOWN pos 3)) = Some c)
  ∧ (Main.start w ≠ Some c → Main.end_ w ≠ Some c →
     c ∈ obstacles
           (Main.grid (Main.handle_event w (Main.MOUSEBUTTONDOWN pos 2)))).
Proof.
  intros Hin.
  assert (Hcell : (pos.1 `div` Main.CELL_SIZE, pos.2 `div` Main.CELL_SIZE)
                  = c).
  { destruct c as [cx cy], pos as [px py].
    unfold point_in_rect, Main.cell_rect, Main.CELL_SIZE in *. simpl in *.
    f_equal; symmetry.
    - apply (Z.div_unique px 20 cx (px - 20 * cx)); lia.
    - apply (Z.div_unique py 20 cy (py - 20 * cy)); lia. }
  cbn [Main.handle_event]. cbv zeta. rewrite Hcell.
  split_and!; intros H1 H2.
  - rewrite bool_decide_eq_true_2 by done.
    rewrite bool_decide_eq_true_2; [done|]. split; [done|congruence].
  - rewrite bool_decide_eq_false_2 by done.
    rewrite bool_decide_eq_true_2 by done.
    rewrite bool_decide_eq_true_2; [done|]. split; [done|congruence].
  - rewrite bool_decide_eq_false_2 by done.
    rewrite bool_decide_eq_false_2 by done.
    rewrite bool_decide_eq_true_2 by done.
    rewrite bool_decide_eq_true_2; [|split; congruence].
    simpl. set_solver.
Qed.

Lemma click_selects_cell_witness :
  let w := Main.initial in
  let c := (2, 6) in
  let pos := (45, 130) in
  (c ∉ obstacles (Main.grid w) → Main.end_ w ≠ Some c →
   Main.start (Main.handle_event w (Main.MOUSEBUTTONDOWN pos 1)) = Some c)
  ∧ (c ∉ obstacles (Main.grid w) → Main.start w ≠ Some c →
     Main.end_ (Main.handle_event w (Main.MOUSEBUTTONDOWN pos 3)) = Some c)
  ∧ (Main.start w ≠ Some c → Main.end_ w ≠ Some c →
     c ∈ obstacles
           (Main.grid (Main.handle_event w (Main.MOUSEBUTTONDOWN pos 2)))).
Proof.
  intros w c pos. apply click_selects_cell. vm_compute. by repeat split.
Defined.

(** X15: no event takes away a single obstacle or unsets a single mark:
    after any event either every obstacle is still there and a mark that
    was set is still set (it may have moved), or the game was reset as a
    whole. *)
Theorem handle_event_keeps_or_resets w event :
  (obstacles (Main.grid w)
     ⊆ obstacles (Main.grid (Main.handle_event w event))
   ∧ (Main.start w ≠ None → Main.start (Main.handle_event w event) ≠ None)
   ∧ (Main.end_ w ≠ None → Main.end_ (Main.handle_event w event) ≠ None))
  ∨ (obstacles (Main.grid (Main.handle_event w event)) = ∅
     ∧ Main.start (Main.handle_event w event) = None
     ∧ Main.end_ (Main.handle_event w event) = None
     ∧ Main.path (Main.handle_event w event) = None).
Proof.
  destruct event as [|pos button|key|]; cbn [Main.handle_event]; cbv zeta.
  - by left.
  - left. repeat case_bool_decide; simpl; split_and!; try done.
    apply union_subseteq_r.
  - case_bool_decide; [|case_bool_decide; [by right|by left]].
    destruct (Main.start w) as [s|] eqn:Hstart;
      [|left; simpl; by rewrite Hstart].
    destruct (Main.end_ w) as [e|] eqn:Hend;
      [|left; simpl; by rewrite Hstart, Hend].
    rewrite astar_globals.
    destruct (astar (Main.grid w) s e).1; [|by right].
    left. simpl. by rewrite Hstart, Hend.
  - by left.
Qed.
